(** * Order service of [part3/01-fastapi/app/main.py]

    A shallow embedding of the FastAPI order service: the pydantic models
    [Product], [Order], [OrderUpdate] and [InferenceImageProduct], the
    module-level list [orders], and the request handlers.

    Python objects that the program mutates and shares (the [Order]
    instances and the list objects behind [Order.products]) live in an
    explicit heap; handlers are computations in a state-and-exception
    monad over that heap. *)

From Stdlib Require Import ZArith Floats.SpecFloat.
From stdpp Require Import gmap strings list fin_maps.

Local Open Scope Z_scope.

(* ===================================================================== *)
(** * Python numbers *)
(* ===================================================================== *)

(** A Python [float] is an IEEE-754 binary64 value: 53 bits of precision,
    exponent bound 1024. *)
Abbreviation float := spec_float (only parsing).

Definition float_add : float → float → float := SFadd 53 1024.

(** [float(z)] for an integer [z]: the nearest binary64 value. *)
Definition float_of_int (z : Z) : float := binary_normalize 53 1024 z 0 false.

(** The numbers this program computes with: [int] and [float]. *)
Inductive pynum :=
  | PyInt (z : Z)
  | PyFloat (x : float).

(** [a + b]: an [int] operand is converted when the other is a [float]. *)
Definition py_add (a b : pynum) : pynum :=
  match a, b with
  | PyInt x, PyInt y => PyInt (x + y)
  | PyInt x, PyFloat y => PyFloat (float_add (float_of_int x) y)
  | PyFloat x, PyInt y => PyFloat (float_add x (float_of_int y))
  | PyFloat x, PyFloat y => PyFloat (float_add x y)
  end.

(** The builtin [sum(xs)]: start from the integer [0] and add the items
    from left to right. (CPython 3.12 and later also compensate the
    rounding error of a float sum; the result is the same whenever the
    partial sums are exact.) *)
Definition py_sum (xs : list pynum) : pynum := fold_left py_add xs (PyInt 0).

(** The integer a number stands for, when it is one: [int(x)] for a
    [float] with [x.is_integer()]. *)
Definition float_as_int (x : float) : option Z :=
  match x with
  | S754_zero _ => Some 0
  | S754_finite s m e =>
      if 0 <=? e then Some (cond_Zopp s (Zpos m * 2 ^ e))
      else if Zpos m mod 2 ^ (- e) =? 0 then Some (cond_Zopp s (Zpos m / 2 ^ (- e)))
      else None
  | _ => None
  end.

Definition py_as_int (a : pynum) : option Z :=
  match a with
  | PyInt z => Some z
  | PyFloat x => float_as_int x
  end.

(** The normalised binary64 representation of an integer [0 < c < 2^53]:
    a 53-bit mantissa and the matching exponent. *)
Definition canon (c : Z) : float :=
  S754_finite false (Z.to_pos (c * 2 ^ (53 - (Z.log2 c + 1)))) (Z.log2 c + 1 - 53).

(* ===================================================================== *)
(** * Data model *)
(* ===================================================================== *)

(** [uuid.UUID]: a 128-bit value. *)
Abbreviation UUID := N (only parsing).

(** [datetime.datetime]: microseconds on the wall clock. *)
Abbreviation datetime := Z (only parsing).

(** Addresses of heap objects. *)
Abbreviation loc := nat (only parsing).

(** Python exceptions, by their message. *)
Abbreviation exn := string (only parsing).

(** Modelled from the spec: [app.model] is not among the sources; one
    element of the prediction sequence returned by the classifier is kept
    as an uninterpreted label. *)
Abbreviation Prediction := string (only parsing).

(** [class Product(BaseModel)] and its subclass [InferenceImageProduct].
    [result] is [None] for a plain [Product], which has no such attribute,
    and [Some r] for an [InferenceImageProduct] whose attribute is [r]
    (itself [Optional[List]]). *)
Module Product.
Record t := mk {
  id : UUID;
  name : string;
  price : float;
  result : option (option (list Prediction))
}.
End Product.

(** [class Order(BaseModel)]. The instance is mutable; [products] holds a
    reference to a Python list object. *)
Module Order.
Record t := mk {
  id : UUID;
  products : loc;
  created_at : datetime;
  updated_at : datetime
}.
End Order.

(** [class OrderUpdate(BaseModel)]. *)
Module OrderUpdate.
Record t := mk { products : list Product.t }.
End OrderUpdate.

(** [fastapi.UploadFile], reduced to what [read()] returns. *)
Module UploadFile.
Record t := mk { content : list Byte.byte }.
End UploadFile.

(** The process state.

    - [order_heap]: the [Order] instances;
    - [list_heap]: the list objects referenced by [Order.products];
    - [orders]: the module-level list [orders], a list of references;
    - [uuid_src], [uuid_pos]: the values [uuid4()] returns, and how many
      have been drawn;
    - [clock], [clock_pos]: the values [datetime.now()] returns, and how
      many have been read;
    - [classify_log]: the byte strings handed to the classifier so far,
      oldest first (a record of the calls made, not program data). *)
Record World := mkWorld {
  order_heap : gmap loc Order.t;
  list_heap : gmap loc (list Product.t);
  orders : list loc;
  uuid_src : nat → UUID;
  uuid_pos : nat;
  clock : nat → datetime;
  clock_pos : nat;
  classify_log : list (list Byte.byte)
}.

Definition with_order_heap (h : gmap loc Order.t) (w : World) : World :=
  mkWorld h (list_heap w) (orders w) (uuid_src w) (uuid_pos w)
          (clock w) (clock_pos w) (classify_log w).

Definition with_list_heap (h : gmap loc (list Product.t)) (w : World) : World :=
  mkWorld (order_heap w) h (orders w) (uuid_src w) (uuid_pos w)
          (clock w) (clock_pos w) (classify_log w).

Definition with_orders (os : list loc) (w : World) : World :=
  mkWorld (order_heap w) (list_heap w) os (uuid_src w) (uuid_pos w)
          (clock w) (clock_pos w) (classify_log w).

Definition with_uuid_pos (n : nat) (w : World) : World :=
  mkWorld (order_heap w) (list_heap w) (orders w) (uuid_src w) n
          (clock w) (clock_pos w) (classify_log w).

Definition with_clock_pos (n : nat) (w : World) : World :=
  mkWorld (order_heap w) (list_heap w) (orders w) (uuid_src w) (uuid_pos w)
          (clock w) n (classify_log w).

Definition with_classify_log (log : list (list Byte.byte)) (w : World) : World :=
  mkWorld (order_heap w) (list_heap w) (orders w) (uuid_src w) (uuid_pos w)
          (clock w) (clock_pos w) log.

(* ===================================================================== *)
(** * The monad of handlers *)
(* ===================================================================== *)

(** What a computation does to a world: return a value, raise an
    exception (side effects made before the raise stay), or go [Wrong] on
    a dangling reference, which no Python program can hold. *)
Inductive Outcome (A : Type) :=
  | Returned (a : A) (w : World)
  | Raised (e : exn) (w : World)
  | Wrong.
Arguments Returned {A} a w.
Arguments Raised {A} e w.
Arguments Wrong {A}.

Definition M (A : Type) := World → Outcome A.

Definition ret {A} (a : A) : M A := fun w => Returned a w.

Definition bind {A B} (m : M A) (k : A → M B) : M B :=
  fun w =>
    match m w with
    | Returned a w' => k a w'
    | Raised e w' => Raised e w'
    | Wrong => Wrong
    end.

Declare Scope py_scope.
Delimit Scope py_scope with py.
Notation "x <- m ;; k" := (bind m (fun x => k))
  (at level 100, m at next level, right associativity) : py_scope.
Notation "m ;; k" := (bind m (fun _ => k))
  (at level 100, right associativity) : py_scope.
Local Open Scope py_scope.

(** ** Primitive effects *)

(** [uuid4()] *)
Definition uuid4 : M UUID :=
  fun w => Returned (uuid_src w (uuid_pos w)) (with_uuid_pos (S (uuid_pos w)) w).

(** [datetime.now()] *)
Definition datetime_now : M datetime :=
  fun w => Returned (clock w (clock_pos w)) (with_clock_pos (S (clock_pos w)) w).

(** Allocation of a new [Order] instance. *)
Definition alloc_order (o : Order.t) : M loc :=
  fun w =>
    let l := fresh (dom (order_heap w)) in
    Returned l (with_order_heap (<[l := o]> (order_heap w)) w).

(** Allocation of a new list object. *)
Definition alloc_list (ps : list Product.t) : M loc :=
  fun w =>
    let l := fresh (dom (list_heap w)) in
    Returned l (with_list_heap (<[l := ps]> (list_heap w)) w).

(** Reading the attributes of an [Order] instance. *)
Definition get_obj (l : loc) : M Order.t :=
  fun w =>
    match order_heap w !! l with
    | Some o => Returned o w
    | None => Wrong
    end.

(** Reading the items of a list object. *)
Definition get_list (l : loc) : M (list Product.t) :=
  fun w =>
    match list_heap w !! l with
    | Some ps => Returned ps w
    | None => Wrong
    end.

(** [lst.append(p)] on the list object at [l]. *)
Definition list_append (l : loc) (p : Product.t) : M unit :=
  fun w =>
    match list_heap w !! l with
    | Some ps => Returned tt (with_list_heap (<[l := ps ++ [p]]> (list_heap w)) w)
    | None => Wrong
    end.

(** [self.updated_at = t] on the instance at [l]. *)
Definition set_updated_at (l : loc) (t : datetime) : M unit :=
  fun w =>
    match order_heap w !! l with
    | Some o =>
        let o' := Order.mk (Order.id o) (Order.products o) (Order.created_at o) t in
        Returned tt (with_order_heap (<[l := o']> (order_heap w)) w)
    | None => Wrong
    end.

(* ===================================================================== *)
(** * The models' behaviour *)
(* ===================================================================== *)

(** [Order(products=products)]: pydantic fills the fields in declaration
    order: [id] from [uuid4()], [products] validated into a list of its
    own, [created_at] and [updated_at] from one [datetime.now()] each. *)
Definition Order_new (products : list Product.t) : M loc :=
  i <- uuid4 ;;
  pl <- alloc_list products ;;
  c <- datetime_now ;;
  u <- datetime_now ;;
  alloc_order (Order.mk i pl c u).

(** [Order.copy()]: pydantic's shallow copy, a new instance whose
    attributes are the same objects. *)
Definition Order_copy (self : loc) : M loc :=
  o <- get_obj self ;;
  alloc_order o.

(** [InferenceImageProduct(result=r)]: [id] from [uuid4()], [name] and
    [price] from the class defaults. *)
Definition price_default : float := float_of_int 100.

Definition InferenceImageProduct (r : option (list Prediction)) : M Product.t :=
  i <- uuid4 ;;
  ret (Product.mk i "inference_image_product" price_default (Some r)).

(** The list comprehension [[p.id for p in ps]]. *)
Definition product_ids (ps : list Product.t) : list UUID := map Product.id ps.

(** [Order.bill] *)
Definition bill (self : loc) : M pynum :=
  o <- get_obj self ;;
  ps <- get_list (Order.products o) ;;
  ret (py_sum (map (fun product => PyFloat (Product.price product)) ps)).

(** [Order.add_product] *)
Definition add_product (self : loc) (product : Product.t) : M loc :=
  o <- get_obj self ;;
  ps <- get_list (Order.products o) ;;
  if bool_decide (Product.id product ∈ product_ids ps) then ret self
  else
    list_append (Order.products o) product ;;
    t <- datetime_now ;;
    set_updated_at self t ;;
    ret self.

(* ===================================================================== *)
(** * The store and the handlers *)
(* ===================================================================== *)

(** What a handler hands back to FastAPI for serialisation. *)
Inductive Body :=
  | BOrder (order : loc)
  | BOrders (os : list loc)
  | BDict (items : list (string * string))
  | BNumber (n : pynum).

(** The dictionary the handlers return when no order matches. *)
Definition not_found_message : list (string * string) :=
  [("message", "주문 정보를 찾을 수 없습니다")].

(** [hello_world] *)
Definition hello_world : M Body := ret (BDict [("hello", "world")]).

(** [get_orders] *)
Definition get_orders : M Body := fun w => Returned (BOrders (orders w)) w.

(** The generator expression of [get_order_by_id] driven by [next]: the
    first order of [os] whose [id] is [order_id], else the default [None]. *)
Fixpoint next_order (os : list loc) (order_id : UUID) : M (option loc) :=
  match os with
  | [] => ret None
  | order :: rest =>
      o <- get_obj order ;;
      if bool_decide (Order.id o = order_id) then ret (Some order)
      else next_order rest order_id
  end.

(** [get_order_by_id] *)
Definition get_order_by_id (order_id : UUID) : M (option loc) :=
  fun w => next_order (orders w) order_id w.

(** [get_order]. An [Order] instance is truthy (the class defines neither
    [__bool__] nor [__len__]), so [not order] holds for [None] only. *)
Definition get_order (order_id : UUID) : M Body :=
  order <- get_order_by_id order_id ;;
  match order with
  | None => ret (BDict not_found_message)
  | Some order => ret (BOrder order)
  end.

(** [orders.append(new_order)] *)
Definition orders_append (new_order : loc) : M unit :=
  fun w => Returned tt (with_orders (orders w ++ [new_order]) w).

(** The loop of [update_order_by_id]. *)
Fixpoint update_loop (existing_order : loc) (products : list Product.t)
    (updated_order : loc) : M loc :=
  match products with
  | [] => ret updated_order
  | next_product :: rest =>
      updated_order <- add_product existing_order next_product ;;
      update_loop existing_order rest updated_order
  end.

(** [update_order_by_id] *)
Definition update_order_by_id (order_id : UUID) (order_update : OrderUpdate.t)
    : M (option loc) :=
  existing_order <- get_order_by_id order_id ;;
  match existing_order with
  | None => ret None
  | Some existing_order =>
      updated_order <- Order_copy existing_order ;;
      updated_order <-
        update_loop existing_order (OrderUpdate.products order_update) updated_order ;;
      ret (Some updated_order)
  end.

(** [update_order] *)
Definition update_order (order_id : UUID) (order_update : OrderUpdate.t) : M Body :=
  updated_order <- update_order_by_id order_id order_update ;;
  match updated_order with
  | None => ret (BDict not_found_message)
  | Some updated_order => ret (BOrder updated_order)
  end.

(** [get_bill] *)
Definition get_bill (order_id : UUID) : M Body :=
  found_order <- get_order_by_id order_id ;;
  match found_order with
  | None => ret (BDict not_found_message)
  | Some found_order =>
      b <- bill found_order ;;
      ret (BNumber b)
  end.

(** [await file.read()] *)
Definition read (file : UploadFile.t) : M (list Byte.byte) :=
  ret (UploadFile.content file).

Section Classifier.

(** The injected dependencies of [make_order]. [app.model] is not among
    the sources: the model handle, the configuration and the classifier
    are parameters. The classifier returns the prediction sequence or
    the exception it raises. *)
Variables Model Config : Type.
Variable predict_from_image_byte :
  Model → list Byte.byte → Config → exn + list Prediction.

(** One call of the classifier, entered in [classify_log]. *)
Definition classify (model : Model) (image_bytes : list Byte.byte) (config : Config)
    : M (list Prediction) :=
  fun w =>
    let w' := with_classify_log (classify_log w ++ [image_bytes]) w in
    match predict_from_image_byte model image_bytes config with
    | inl e => Raised e w'
    | inr r => Returned r w'
    end.

(** The loop of [make_order] over the uploaded files. *)
Fixpoint make_products (files : list UploadFile.t) (model : Model) (config : Config)
    (products : list Product.t) : M (list Product.t) :=
  match files with
  | [] => ret products
  | file :: rest =>
      image_bytes <- read file ;;
      inference_result <- classify model image_bytes config ;;
      product <- InferenceImageProduct (Some inference_result) ;;
      make_products rest model config (products ++ [product])
  end.

(** [make_order] *)
Definition make_order (files : list UploadFile.t) (model : Model) (config : Config)
    : M Body :=
  products <- make_products files model config [] ;;
  new_order <- Order_new products ;;
  orders_append new_order ;;
  ret (BOrder new_order).

End Classifier.

(** The status line FastAPI sends: none of the routes declares a
    [status_code], so a handler that returns is answered with 200, and an
    exception that escapes the handler with 500. *)
Definition status_code {A} (r : Outcome A) : option Z :=
  match r with
  | Returned _ _ => Some 200
  | Raised _ _ => Some 500
  | Wrong => None
  end.

(* ===================================================================== *)
(** * Views of the heap used in the statements *)
(* ===================================================================== *)

(** The value of an [Order] instance: its attributes with the list
    behind [products] read out. *)
Record OrderValue := mkOrderValue {
  v_id : UUID;
  v_products : list Product.t;
  v_created_at : datetime;
  v_updated_at : datetime
}.

Definition snapshot (w : World) (l : loc) : option OrderValue :=
  match order_heap w !! l with
  | Some o =>
      match list_heap w !! Order.products o with
      | Some ps =>
          Some (mkOrderValue (Order.id o) ps (Order.created_at o) (Order.updated_at o))
      | None => None
      end
  | None => None
  end.

(** No reference in the world dangles. *)
Definition World_ok (w : World) : Prop :=
  Forall (λ l, is_Some (order_heap w !! l)) (orders w) ∧
  map_Forall (λ _ o, is_Some (list_heap w !! Order.products o)) (order_heap w).

(** No stored order has the identifier [order_id]. *)
Definition absent (w : World) (order_id : UUID) : Prop :=
  ∀ l o, l ∈ orders w → order_heap w !! l = Some o → Order.id o ≠ order_id.

(** [l] is the first stored order, in the order of [orders], whose
    identifier is [order_id]. *)
Definition first_match (w : World) (order_id : UUID) (l : loc) : Prop :=
  ∃ pre post o,
    orders w = pre ++ l :: post ∧
    order_heap w !! l = Some o ∧ Order.id o = order_id ∧
    ∀ l' o', l' ∈ pre → order_heap w !! l' = Some o' → Order.id o' ≠ order_id.

(** [add_product] on a list of products, without the heap. *)
Definition add_product_pure (ps : list Product.t) (product : Product.t)
    : list Product.t :=
  if bool_decide (Product.id product ∈ product_ids ps) then ps else ps ++ [product].

(** The world [add_product] leaves when the product is new. *)
Definition appended (w : World) (self : loc) (o : Order.t) (ps : list Product.t)
    (product : Product.t) : World :=
  mkWorld
    (<[self := Order.mk (Order.id o) (Order.products o) (Order.created_at o)
                        (clock w (clock_pos w))]> (order_heap w))
    (<[Order.products o := ps ++ [product]]> (list_heap w))
    (orders w) (uuid_src w) (uuid_pos w)
    (clock w) (S (clock_pos w)) (classify_log w).


(* ===================================================================== *)
(** * Sample data *)
(* ===================================================================== *)

(** A process that has just started: nothing allocated, no order stored;
    [uuid4()] and [datetime.now()] count upwards. *)
Definition world0 : World :=
  mkWorld ∅ ∅ [] N.of_nat 0 Z.of_nat 0 [].

(** The world a computation leaves; the starting world when it goes
    [Wrong]. *)
Definition world_after {A} (m : M A) (w : World) : World :=
  match m w with
  | Returned _ w' => w'
  | Raised _ w' => w'
  | Wrong => w
  end.

Definition product_a : Product.t := Product.mk 1001 "A" (float_of_int 10) None.
Definition product_b : Product.t := Product.mk 1002 "B" (float_of_int 20) None.
Definition product_c : Product.t := Product.mk 1003 "C" (float_of_int 5) None.

(** [world0] after [Order(products=[product_a, product_b])]: the order
    is the instance at address 0, with [id] 0. *)
Definition world_ab : World := world_after (Order_new [product_a; product_b]) world0.

(** ... and after that order was appended to [orders]. *)
Definition world_stored : World := world_after (orders_append 0%nat) world_ab.

(* ===================================================================== *)
(** * Worlds and values that the handlers produce *)
(* ===================================================================== *)

(** The products [make_order] builds from the classifier's results, the
    first one taking the identifier [src pos]. *)
Fixpoint inference_products (src : nat → UUID) (pos : nat)
    (results : list (list Prediction)) : list Product.t :=
  match results with
  | [] => []
  | r :: rest =>
      Product.mk (src pos) "inference_image_product" price_default (Some (Some r))
        :: inference_products src (S pos) rest
  end.

(** The world after the classifier took [inputs] and [n] identifiers
    were drawn. *)
Definition classified (w : World) (inputs : list (list Byte.byte)) (n : nat) : World :=
  mkWorld (order_heap w) (list_heap w) (orders w) (uuid_src w) (uuid_pos w + n)
          (clock w) (clock_pos w) (classify_log w ++ inputs).

(** The instance [Order(products=ps)] creates in [w], and the world it
    leaves. *)
Definition new_order_obj (w : World) : Order.t :=
  Order.mk (uuid_src w (uuid_pos w)) (fresh (dom (list_heap w)))
           (clock w (clock_pos w)) (clock w (S (clock_pos w))).

Definition created (w : World) (ps : list Product.t) : World :=
  mkWorld
    (<[fresh (dom (order_heap w)) := new_order_obj w]> (order_heap w))
    (<[fresh (dom (list_heap w)) := ps]> (list_heap w))
    (orders w) (uuid_src w) (S (uuid_pos w))
    (clock w) (S (S (clock_pos w))) (classify_log w).

(** The classifier succeeds on each of [files], with [results]. *)
Definition classifies {Model Config : Type}
    (predict : Model → list Byte.byte → Config → exn + list Prediction)
    (model : Model) (config : Config)
    (files : list UploadFile.t) (results : list (list Prediction)) : Prop :=
  Forall2 (λ file r, predict model (UploadFile.content file) config = inr r)
          files results.

(** A sample classifier: it rejects an empty upload and labels any other
    by its number of bytes being even or odd. *)
Definition sample_predict (model : unit) (image_bytes : list Byte.byte) (config : unit)
    : exn + list Prediction :=
  match image_bytes with
  | [] => inl "cannot identify image file"
  | _ => inr [if Nat.even (length image_bytes) then "even" else "odd"]
  end.

Definition file_good : UploadFile.t := UploadFile.mk [Byte.x89; Byte.x50].
Definition file_bad : UploadFile.t := UploadFile.mk [].

(** [add_product] applied to the order [self] once for each of
    [products], in their order. *)
Fixpoint add_each (self : loc) (products : list Product.t) : M unit :=
  match products with
  | [] => ret tt
  | product :: rest => add_product self product ;; add_each self rest
  end.

(* ===================================================================== *)
(** * The service as a transition system *)
(* ===================================================================== *)

(** No two products of an order share an [id]. *)
Definition products_distinct (w : World) : Prop :=
  ∀ l o ps,
    order_heap w !! l = Some o →
    list_heap w !! Order.products o = Some ps →
    NoDup (product_ids ps).

(** The world in which a computation ends, by return or by exception. *)
Definition final_world {A} (r : Outcome A) : option World :=
  match r with
  | Returned _ w' => Some w'
  | Raised _ w' => Some w'
  | Wrong => None
  end.

(** A freshly started process whose [uuid4()] never repeats a value. *)
Definition initial (w : World) : Prop :=
  order_heap w = ∅ ∧ list_heap w = ∅ ∧ orders w = [] ∧
  Inj (=) (=) (uuid_src w).

(** One operation on orders: constructing an [Order] from products with
    pairwise distinct ids (none, in particular), [add_product], and the
    handlers. *)
Inductive step (w : World) : World → Prop :=
  | step_construct (ps : list Product.t) (w' : World) :
      NoDup (product_ids ps) →
      final_world (Order_new ps w) = Some w' → step w w'
  | step_add_product (self : loc) (product : Product.t) (w' : World) :
      final_world (add_product self product w) = Some w' → step w w'
  | step_make_order (Model Config : Type)
      (predict : Model → list Byte.byte → Config → exn + list Prediction)
      (files : list UploadFile.t) (model : Model) (config : Config) (w' : World) :
      final_world (make_order Model Config predict files model config w) = Some w' →
      step w w'
  | step_update_order (order_id : UUID) (order_update : OrderUpdate.t) (w' : World) :
      final_world (update_order order_id order_update w) = Some w' → step w w'
  | step_get_orders (w' : World) :
      final_world (get_orders w) = Some w' → step w w'
  | step_get_order (order_id : UUID) (w' : World) :
      final_world (get_order order_id w) = Some w' → step w w'
  | step_get_bill (order_id : UUID) (w' : World) :
      final_world (get_bill order_id w) = Some w' → step w w'.

Inductive reachable : World → Prop :=
  | reachable_initial (w : World) : initial w → reachable w
  | reachable_step (w w' : World) : reachable w → step w w' → reachable w'.

(** Every list object holds products with pairwise distinct ids. *)
Definition lists_distinct (w : World) : Prop :=
  map_Forall (λ _ ps, NoDup (product_ids ps)) (list_heap w).

(** [world0] after POST /order with two files and a PATCH of the order
    created, which has [id] 2. *)
Definition world_served : World :=
  world_after (update_order 2 (OrderUpdate.mk [product_a; product_a; product_b]))
    (world_after (make_order unit unit sample_predict [file_good; file_good] tt tt)
       world0).

(** What an operation may change, as far as distinct ids are concerned. *)
Definition keeps_distinct (w w' : World) : Prop :=
  (lists_distinct w → lists_distinct w') ∧ uuid_src w' = uuid_src w.

(* ===================================================================== *)
(** * Elementary changes of the world *)
(* ===================================================================== *)

(** The world after [Order.copy()] of an instance with attributes [o]. *)
Definition copied (w : World) (o : Order.t) : World :=
  with_order_heap (<[fresh (dom (order_heap w)) := o]> (order_heap w)) w.

(** The world after [Order(products=ps)] and [orders.append] of the new
    instance. *)
Definition stored_new (w : World) (ps : list Product.t) : World :=
  with_orders (orders w ++ [fresh (dom (order_heap w))]) (created w ps).

(** The changes of the world out of which every operation is made: an
    append by [add_product], a copy, a construction, the classifier's
    calls with the identifiers drawn between them, and the construction
    and storing of an order by [make_order]. *)
Inductive prim : World → World → Prop :=
  | prim_append (w : World) (self : loc) (o : Order.t) (ps : list Product.t)
      (product : Product.t) :
      order_heap w !! self = Some o →
      list_heap w !! Order.products o = Some ps →
      Product.id product ∉ product_ids ps →
      prim w (appended w self o ps product)
  | prim_copy (w : World) (self : loc) (o : Order.t) :
      order_heap w !! self = Some o → prim w (copied w o)
  | prim_create (w : World) (ps : list Product.t) : prim w (created w ps)
  | prim_classified (w : World) (inputs : list (list Byte.byte)) (n : nat) :
      prim w (classified w inputs n)
  | prim_store (w : World) (ps : list Product.t) : prim w (stored_new w ps).

(** The attributes of the stored orders, in the order of [orders]. *)
Definition stored_of (h : gmap loc Order.t) (os : list loc) : list Order.t :=
  omap (λ l, h !! l) os.

Definition stored (w : World) : list Order.t := stored_of (order_heap w) (orders w).

(** [w'] keeps what [w] holds: the stored orders in their places, every
    instance with its identifier, creation time and products list, every
    products list with its items in their places, and the sources of
    identifiers and time, of which it may have consumed more. *)
Definition extends (w w' : World) : Prop :=
  orders w `prefix_of` orders w' ∧
  (∀ l o, order_heap w !! l = Some o →
          ∃ o', order_heap w' !! l = Some o' ∧
                Order.id o' = Order.id o ∧
                Order.products o' = Order.products o ∧
                Order.created_at o' = Order.created_at o) ∧
  (∀ pl ps, list_heap w !! pl = Some ps →
            ∃ ps', list_heap w' !! pl = Some ps' ∧ ps `prefix_of` ps') ∧
  uuid_src w' = uuid_src w ∧ clock w' = clock w ∧
  (uuid_pos w ≤ uuid_pos w')%nat ∧ (clock_pos w ≤ clock_pos w')%nat ∧
  classify_log w `prefix_of` classify_log w'.

(** What holds of every world the service can reach: no reference
    dangles; [orders] holds each instance once; the stored orders have
    pairwise distinct identifiers, all drawn from [uuid4()], and pairwise
    distinct products lists; the two timestamps of an instance are
    readings of the clock, [created_at] not the later one; [uuid4()]
    never repeats a value. *)
Record store_inv (w : World) : Prop := mk_store_inv {
  inv_ok : World_ok w;
  inv_orders : NoDup (orders w);
  inv_drawn :
    Forall (λ i, ∃ k, (k < uuid_pos w)%nat ∧ i = uuid_src w k)
           (map Order.id (stored w));
  inv_ids : NoDup (map Order.id (stored w));
  inv_lists : NoDup (map Order.products (stored w));
  inv_times :
    map_Forall (λ _ o, ∃ i j, (i ≤ j < clock_pos w)%nat ∧
                              Order.created_at o = clock w i ∧
                              Order.updated_at o = clock w j)
               (order_heap w);
  inv_src : Inj (=) (=) (uuid_src w)
}.

(** [world0] after POST /order with two files. *)
Definition world_made : World :=
  world_after (make_order unit unit sample_predict [file_good; file_good] tt tt) world0.

(** [world_made] after a second POST /order, with one file: the new
    order is the instance at address 1, with [id] 4. *)
Definition world_two : World :=
  world_after (make_order unit unit sample_predict [file_good] tt tt) world_made.

(** The sum of a list of integers. *)
Definition total (zs : list Z) : Z := foldr Z.add 0 zs.
(* ===================================================================== *)
(** * add_product *)
(* ===================================================================== *)

Ltac run_monad :=
  unfold bind, ret, get_obj, get_list, list_append, set_updated_at, datetime_now;
  simpl.

Lemma add_product_present (w : World) (self : loc) (product : Product.t)
    (o : Order.t) (ps : list Product.t) :
  order_heap w !! self = Some o →
  list_heap w !! Order.products o = Some ps →
  Product.id product ∈ product_ids ps →
  add_product self product w = Returned self w.
Proof.
  intros Ho Hps Hin. unfold add_product. run_monad.
  rewrite Ho, Hps. simpl. rewrite bool_decide_eq_true_2 by done. done.
Qed.

Lemma add_product_absent (w : World) (self : loc) (product : Product.t)
    (o : Order.t) (ps : list Product.t) :
  order_heap w !! self = Some o →
  list_heap w !! Order.products o = Some ps →
  Product.id product ∉ product_ids ps →
  add_product self product w = Returned self (appended w self o ps product).
Proof.
  intros Ho Hps Hin. unfold add_product. run_monad.
  rewrite Ho, Hps. simpl. rewrite bool_decide_eq_false_2 by done.
  simpl. rewrite Hps. simpl. rewrite Ho. done.
Qed.

Lemma snapshot_appended (w : World) (self : loc) (product : Product.t)
    (o : Order.t) (ps : list Product.t) :
  snapshot (appended w self o ps product) self =
    Some (mkOrderValue (Order.id o) (ps ++ [product]) (Order.created_at o)
                       (clock w (clock_pos w))).
Proof.
  unfold snapshot, appended. simpl.
  rewrite lookup_insert_eq. simpl. rewrite lookup_insert_eq. done.
Qed.

Lemma snapshot_Some (w : World) (l : loc) (o : Order.t) (ps : list Product.t) :
  order_heap w !! l = Some o →
  list_heap w !! Order.products o = Some ps →
  snapshot w l =
    Some (mkOrderValue (Order.id o) ps (Order.created_at o) (Order.updated_at o)).
Proof. intros Ho Hps. unfold snapshot. rewrite Ho, Hps. done. Qed.

Lemma snapshot_inv (w : World) (l : loc) (v : OrderValue) :
  snapshot w l = Some v →
  ∃ o, order_heap w !! l = Some o ∧
       list_heap w !! Order.products o = Some (v_products v) ∧
       v_id v = Order.id o ∧ v_created_at v = Order.created_at o ∧
       v_updated_at v = Order.updated_at o.
Proof.
  unfold snapshot. intros H.
  destruct (order_heap w !! l) as [o|]; [|done].
  destruct (list_heap w !! Order.products o) as [ps|] eqn:Hps; [|done].
  inversion H; subst; simpl. exists o. done.
Qed.

(** The outcome of [add_product] on any live order, through its value. *)
Lemma add_product_snapshot (w : World) (self : loc) (product : Product.t)
    (v : OrderValue) :
  snapshot w self = Some v →
  ∃ w', add_product self product w = Returned self w' ∧
        orders w' = orders w ∧
        ∃ v', snapshot w' self = Some v' ∧
              v_products v' = add_product_pure (v_products v) product ∧
              v_id v' = v_id v ∧ v_created_at v' = v_created_at v.
Proof.
  intros (o & Ho & Hps & Hid & Hc & Hu)%snapshot_inv.
  unfold add_product_pure.
  destruct (decide (Product.id product ∈ product_ids (v_products v))) as [Hin|Hin].
  - exists w. rewrite (add_product_present w self product o _ Ho Hps Hin).
    rewrite bool_decide_eq_true_2 by done.
    split; [done|]. split; [done|]. exists v. split; [|done].
    rewrite (snapshot_Some _ _ _ _ Ho Hps). destruct v; simpl in *; congruence.
  - exists (appended w self o (v_products v) product).
    rewrite (add_product_absent w self product o _ Ho Hps Hin).
    rewrite bool_decide_eq_false_2 by done.
    split; [done|]. split; [done|].
    eexists. split; [apply snapshot_appended|]. simpl. done.
Qed.

(** C1. [add_product] is idempotent. When the product's id already occurs
    among the order's products, the call returns the order and leaves the
    whole world as it was: the products list has the same length and
    content and [updated_at] is not bumped. Consequently, after one call
    with a product, any further call with a product of the same id
    changes nothing: the products list is the one the first call left,
    and only the first call can have changed [updated_at]. *)
Theorem add_product_idempotent (w : World) (self : loc) (product : Product.t)
    (v : OrderValue) :
  snapshot w self = Some v →
  (Product.id product ∈ product_ids (v_products v) →
     add_product self product w = Returned self w) ∧
  (∃ w1, add_product self product w = Returned self w1 ∧
         ∀ product', Product.id product' = Product.id product →
                     add_product self product' w1 = Returned self w1).
Proof.
  intros Hv.
  destruct (snapshot_inv _ _ _ Hv) as (o & Ho & Hps & _).
  split.
  - intros Hin. by apply (add_product_present w self product o (v_products v)).
  - destruct (decide (Product.id product ∈ product_ids (v_products v))) as [Hin|Hin].
    + exists w. split.
      * by apply (add_product_present w self product o (v_products v)).
      * intros product' Hid.
        apply (add_product_present w self product' o (v_products v)); [done..|].
        by rewrite Hid.
    + exists (appended w self o (v_products v) product). split.
      * by apply add_product_absent.
      * intros product' Hid.
        eapply add_product_present.
        -- unfold appended; simpl. apply lookup_insert_eq.
        -- unfold appended; simpl. apply lookup_insert_eq.
        -- rewrite Hid. unfold product_ids. rewrite map_app.
           apply elem_of_app. right. simpl. apply list_elem_of_here.
Qed.

Lemma add_product_idempotent_witness :
  snapshot world_ab 0%nat =
    Some (mkOrderValue 0 [product_a; product_b] 0 1) ∧
  add_product 0%nat product_a world_ab = Returned 0%nat world_ab.
Proof.
  split; [reflexivity|].
  apply (add_product_idempotent world_ab 0%nat product_a
           (mkOrderValue 0 [product_a; product_b] 0 1)).
  - reflexivity.
  - simpl. apply list_elem_of_here.
Defined.

(** C7. [add_product] with a product whose id does not occur among the
    order's products appends it at the end of the products list, every
    earlier product staying at its position, sets [updated_at] to the
    time [datetime.now()] gives at the call, and returns the order. *)
Theorem add_product_appends (w : World) (self : loc) (product : Product.t)
    (v : OrderValue) :
  snapshot w self = Some v →
  Product.id product ∉ product_ids (v_products v) →
  ∃ w' v',
    add_product self product w = Returned self w' ∧
    snapshot w' self = Some v' ∧
    v_products v' = v_products v ++ [product] ∧
    (∀ i p, v_products v !! i = Some p → v_products v' !! i = Some p) ∧
    v_products v' !! length (v_products v) = Some product ∧
    length (v_products v') = S (length (v_products v)) ∧
    v_updated_at v' = clock w (clock_pos w) ∧
    datetime_now w = Returned (v_updated_at v') (with_clock_pos (S (clock_pos w)) w) ∧
    v_id v' = v_id v ∧ v_created_at v' = v_created_at v ∧
    orders w' = orders w.
Proof.
  intros Hv Hin.
  destruct (snapshot_inv _ _ _ Hv) as (o & Ho & Hps & Hid & Hc & _).
  exists (appended w self o (v_products v) product). eexists.
  split; [by apply add_product_absent|].
  split; [apply snapshot_appended|]. simpl.
  split; [done|].
  split; [intros i p Hi; by apply lookup_app_l_Some|].
  split; [by rewrite lookup_app_r, Nat.sub_diag|].
  split; [rewrite length_app; simpl; lia|].
  done.
Qed.

Lemma add_product_appends_witness :
  ∃ w' v',
    add_product 0%nat product_c world_ab = Returned 0%nat w' ∧
    snapshot w' 0%nat = Some v' ∧
    v_products v' = [product_a; product_b; product_c] ∧
    v_updated_at v' = 2.
Proof.
  destruct (add_product_appends world_ab 0%nat product_c
              (mkOrderValue 0 [product_a; product_b] 0 1))
    as (w' & v' & Hrun & Hsnap & Hps & _ & _ & _ & Hu & _).
  - reflexivity.
  - simpl. intros Hin. apply list_elem_of_In in Hin. simpl in Hin.
    destruct Hin as [H|[H|[]]]; discriminate H.
  - exists w', v'. repeat split; assumption.
Defined.

(* ===================================================================== *)
(** * bill *)
(* ===================================================================== *)

Lemma py_sum_snoc (xs : list pynum) (x : pynum) :
  py_sum (xs ++ [x]) = py_add (py_sum xs) x.
Proof. unfold py_sum. by rewrite fold_left_app. Qed.

Lemma bill_run (w : World) (self : loc) (v : OrderValue) :
  snapshot w self = Some v →
  bill self w =
    Returned (py_sum (map (λ product, PyFloat (Product.price product)) (v_products v))) w.
Proof.
  intros (o & Ho & Hps & _)%snapshot_inv.
  unfold bill. run_monad. by rewrite Ho, Hps.
Qed.

(** C2. Reading [bill] returns the sum of [price] over the products the
    order holds at that moment, added from left to right starting at the
    integer 0, and changes nothing; for an order with no products it is
    0. The value is recomputed on every read: a read after [add_product]
    appended a product returns the earlier bill plus that product's
    price. *)
Theorem bill_correct (w : World) (self : loc) (v : OrderValue) :
  snapshot w self = Some v →
  bill self w =
    Returned (py_sum (map (λ product, PyFloat (Product.price product)) (v_products v))) w ∧
  (v_products v = [] → bill self w = Returned (PyInt 0) w) ∧
  (∀ product w',
     Product.id product ∉ product_ids (v_products v) →
     add_product self product w = Returned self w' →
     ∃ b, bill self w = Returned b w ∧
          bill self w' = Returned (py_add b (PyFloat (Product.price product))) w').
Proof.
  intros Hv. split; [by apply bill_run|]. split.
  - intros Hnil. rewrite (bill_run _ _ _ Hv), Hnil. done.
  - intros product w' Hin Hadd.
    destruct (snapshot_inv _ _ _ Hv) as (o & Ho & Hps & _).
    rewrite (add_product_absent w self product o _ Ho Hps Hin) in Hadd.
    injection Hadd as <-.
    eexists. split; [by apply bill_run|].
    rewrite (bill_run _ _ _ (snapshot_appended w self product o (v_products v))).
    cbn [v_products]. rewrite map_app. cbn [map].
    by rewrite py_sum_snoc.
Qed.

Lemma bill_correct_witness :
  snapshot world_ab 0%nat =
    Some (mkOrderValue 0 [product_a; product_b] 0 1) ∧
  bill 0%nat world_ab = Returned (PyFloat (float_of_int 30)) world_ab.
Proof.
  split; [reflexivity|].
  destruct (bill_correct world_ab 0%nat
              (mkOrderValue 0 [product_a; product_b] 0 1)) as [H _].
  - reflexivity.
  - rewrite H. reflexivity.
Defined.

(* ===================================================================== *)
(** * Lookup in the store *)
(* ===================================================================== *)

Lemma next_order_none (w : World) (os : list loc) (order_id : UUID) :
  Forall (λ l, is_Some (order_heap w !! l)) os →
  (∀ l o, l ∈ os → order_heap w !! l = Some o → Order.id o ≠ order_id) →
  next_order os order_id w = Returned None w.
Proof.
  induction os as [|l os IH]; intros Hlive Hne; [done|].
  apply Forall_cons in Hlive as [[o Ho] Hlive].
  simpl. run_monad. rewrite Ho. simpl.
  rewrite bool_decide_eq_false_2.
  - apply IH; [done|]. intros l' o' Hl'. apply Hne. by apply list_elem_of_further.
  - apply (Hne l o); [apply list_elem_of_here|done].
Qed.

Lemma next_order_first (w : World) (pre post : list loc) (l : loc) (o : Order.t) :
  Forall (λ l, is_Some (order_heap w !! l)) pre →
  (∀ l' o', l' ∈ pre → order_heap w !! l' = Some o' → Order.id o' ≠ Order.id o) →
  order_heap w !! l = Some o →
  next_order (pre ++ l :: post) (Order.id o) w = Returned (Some l) w.
Proof.
  induction pre as [|l' pre IH]; intros Hlive Hne Ho; simpl; run_monad.
  - rewrite Ho. simpl. by rewrite bool_decide_eq_true_2.
  - apply Forall_cons in Hlive as [[o' Ho'] Hlive].
    rewrite Ho'. simpl. rewrite bool_decide_eq_false_2.
    + apply IH; [done| |done]. intros l2 o2 Hl2. apply Hne.
      by apply list_elem_of_further.
    + apply (Hne l' o'); [apply list_elem_of_here|done].
Qed.

Lemma get_order_by_id_absent (w : World) (order_id : UUID) :
  World_ok w → absent w order_id →
  get_order_by_id order_id w = Returned None w.
Proof.
  intros [Hlive _] Habs. unfold get_order_by_id. by apply next_order_none.
Qed.

Lemma get_order_by_id_first (w : World) (order_id : UUID) (l : loc) :
  World_ok w → first_match w order_id l →
  get_order_by_id order_id w = Returned (Some l) w.
Proof.
  intros [Hlive _] (pre & post & o & Hos & Ho & Hid & Hne).
  unfold get_order_by_id. rewrite Hos, <- Hid.
  apply next_order_first; [|by rewrite Hid|done].
  rewrite Hos in Hlive. by apply Forall_app in Hlive as [? _].
Qed.

(** A stored order with a given identifier makes some stored order the
    first match for it. *)
Lemma first_match_exists (w : World) (l : loc) (o : Order.t) :
  World_ok w → l ∈ orders w → order_heap w !! l = Some o →
  ∃ found, first_match w (Order.id o) found.
Proof.
  intros [Hlive _] Hin Ho. unfold first_match.
  induction (orders w) as [|l' os IH]; [by apply elem_of_nil in Hin|].
  apply Forall_cons in Hlive as [[o' Ho'] Hlive].
  destruct (decide (Order.id o' = Order.id o)) as [Heq|Hneq].
  - exists l', [], os, o'. repeat split; [done..|].
    intros l2 o2 Hl2. by apply elem_of_nil in Hl2.
  - assert (l ∈ os) as Hin'.
    { apply elem_of_cons in Hin as [->|?]; [|done]. congruence. }
    destruct (IH Hlive Hin') as (found & pre & post & o2 & Hos & Ho2 & Hid & Hne).
    exists found, (l' :: pre), post, o2. repeat split; [by rewrite Hos|done..|].
    intros l3 o3 [->|Hl3]%elem_of_cons Ho3; [congruence|by eapply Hne].
Qed.

Lemma update_order_absent (w : World) (order_id : UUID)
    (order_update : OrderUpdate.t) :
  World_ok w → absent w order_id →
  update_order order_id order_update w = Returned (BDict not_found_message) w.
Proof.
  intros Hok Habs. unfold update_order, update_order_by_id, bind.
  by rewrite get_order_by_id_absent.
Qed.

(** C3. [update_order_by_id] with an identifier no stored order has
    returns [None] whatever products are supplied, and the world after
    the call is the world before it: no order is mutated and no
    timestamp changes. The PATCH handler then answers with the
    not-found message, the world still unchanged. *)
Theorem update_not_found_atomic (w : World) (order_id : UUID)
    (order_update : OrderUpdate.t) :
  World_ok w → absent w order_id →
  update_order_by_id order_id order_update w = Returned None w ∧
  update_order order_id order_update w = Returned (BDict not_found_message) w.
Proof.
  intros Hok Habs.
  assert (update_order_by_id order_id order_update w = Returned None w) as H.
  { unfold update_order_by_id, bind. by rewrite get_order_by_id_absent. }
  split; [done|]. unfold update_order, bind. by rewrite H.
Qed.

Lemma World_ok_world_stored : World_ok world_stored.
Proof. split; compute_done. Qed.

Lemma absent_world_stored (order_id : UUID) :
  order_id ≠ 0%N → absent world_stored order_id.
Proof.
  intros Hne l o Hl Ho. apply list_elem_of_singleton in Hl. subst l.
  vm_compute in Ho. inversion Ho; subst o. simpl. congruence.
Qed.

Lemma update_not_found_atomic_witness :
  update_order_by_id 99 (OrderUpdate.mk [product_c]) world_stored
    = Returned None world_stored.
Proof.
  apply (update_not_found_atomic world_stored 99 (OrderUpdate.mk [product_c])).
  - exact World_ok_world_stored.
  - by apply absent_world_stored.
Defined.

(* ===================================================================== *)
(** * Order creation *)
(* ===================================================================== *)

Lemma Order_new_run (w : World) (ps : list Product.t) :
  Order_new ps w = Returned (fresh (dom (order_heap w))) (created w ps).
Proof. done. Qed.

Lemma fresh_order_None (w : World) : order_heap w !! fresh (dom (order_heap w)) = None.
Proof. apply not_elem_of_dom, is_fresh. Qed.

Lemma World_ok_created (w : World) (ps : list Product.t) :
  World_ok w → World_ok (created w ps).
Proof.
  intros [Hlive Hlists]. split; simpl.
  - eapply Forall_impl; [exact Hlive|]. intros l [o Ho]. simpl.
    destruct (decide (fresh (dom (order_heap w)) = l)) as [<-|Hne].
    + rewrite lookup_insert_eq. eauto.
    + rewrite lookup_insert_ne by done. eauto.
  - apply map_Forall_insert_2.
    + simpl. rewrite lookup_insert_eq. eauto.
    + intros l o Ho. simpl. specialize (Hlists l o Ho). simpl in Hlists.
      destruct Hlists as [ps' Hps'].
      destruct (decide (fresh (dom (list_heap w)) = Order.products o)) as [Heq|Hne].
      * rewrite Heq, lookup_insert_eq. eauto.
      * rewrite lookup_insert_ne by done. eauto.
Qed.

Lemma World_ok_append (w : World) (l : loc) :
  World_ok w → is_Some (order_heap w !! l) →
  World_ok (with_orders (orders w ++ [l]) w).
Proof.
  intros [Hlive Hlists] Hl. split; simpl; [|done].
  apply Forall_app. split; [done|]. by apply Forall_singleton.
Qed.

Section ClassifierFacts.

Context {Model Config : Type}.
Variable predict : Model → list Byte.byte → Config → exn + list Prediction.
Variable model : Model.
Variable config : Config.

Lemma classified_step (w : World) (c : list Byte.byte) (inputs : list (list Byte.byte))
    (n : nat) :
  classified (with_uuid_pos (S (uuid_pos (with_classify_log (classify_log w ++ [c]) w)))
                (with_classify_log (classify_log w ++ [c]) w)) inputs n
  = classified w (c :: inputs) (S n).
Proof.
  unfold classified, with_uuid_pos, with_classify_log. simpl.
  f_equal; [lia|]. by rewrite <- app_assoc.
Qed.

Lemma make_products_ok (files : list UploadFile.t) (results : list (list Prediction)) :
  classifies predict model config files results →
  ∀ (products : list Product.t) (w : World),
    make_products Model Config predict files model config products w =
      Returned (products ++ inference_products (uuid_src w) (uuid_pos w) results)
               (classified w (map UploadFile.content files) (length files)).
Proof.
  induction 1 as [|file r files results Hr _ IH]; intros products w.
  - simpl. unfold ret, classified. rewrite app_nil_r, Nat.add_0_r, app_nil_r.
    by destruct w.
  - simpl. unfold bind at 1. unfold read, ret. unfold bind at 1. unfold classify.
    rewrite Hr. unfold bind at 1. unfold InferenceImageProduct, bind, uuid4, ret.
    rewrite IH. rewrite classified_step. simpl. by rewrite <- app_assoc.
Qed.

Lemma make_products_fail (pre post : list UploadFile.t) (file : UploadFile.t)
    (results : list (list Prediction)) (e : exn) :
  classifies predict model config pre results →
  predict model (UploadFile.content file) config = inl e →
  ∀ (products : list Product.t) (w : World),
    make_products Model Config predict (pre ++ file :: post) model config products w =
      Raised e (classified w (map UploadFile.content (pre ++ [file])) (length pre)).
Proof.
  intros Hpre He. induction Hpre as [|f r pre results Hr _ IH]; intros products w.
  - simpl. unfold bind at 1. unfold read, ret. unfold bind at 1. unfold classify.
    rewrite He. unfold classified, with_classify_log. simpl.
    by rewrite Nat.add_0_r.
  - simpl. unfold bind at 1. unfold read, ret. unfold bind at 1. unfold classify.
    rewrite Hr. unfold bind at 1. unfold InferenceImageProduct, bind, uuid4, ret.
    rewrite IH. by rewrite classified_step.
Qed.

(** The outcome of [make_order] when every file is classified. *)
Lemma make_order_ok (files : list UploadFile.t) (results : list (list Prediction))
    (w : World) :
  classifies predict model config files results →
  let w1 := classified w (map UploadFile.content files) (length files) in
  let ps := inference_products (uuid_src w) (uuid_pos w) results in
  make_order Model Config predict files model config w =
    Returned (BOrder (fresh (dom (order_heap w))))
             (with_orders (orders w ++ [fresh (dom (order_heap w))]) (created w1 ps)).
Proof.
  intros Hok w1 ps. unfold make_order. unfold bind at 1.
  rewrite (make_products_ok files results Hok). simpl.
  unfold bind at 1. rewrite Order_new_run. done.
Qed.

(** The first file the classifier rejects, when there is one. *)
Lemma first_failure (files : list UploadFile.t) :
  (∃ file, file ∈ files ∧
           ∃ e, predict model (UploadFile.content file) config = inl e) →
  ∃ pre file post results e,
    files = pre ++ file :: post ∧
    classifies predict model config pre results ∧
    predict model (UploadFile.content file) config = inl e.
Proof.
  induction files as [|f files IH]; intros (file & Hin & e & He).
  - by apply elem_of_nil in Hin.
  - destruct (predict model (UploadFile.content f) config) as [e'|r] eqn:Hf.
    + exists [], f, files, [], e'. repeat split; [constructor|done].
    + apply elem_of_cons in Hin as [->|Hin]; [congruence|].
      destruct IH as (pre & file' & post & results & e' & -> & Hpre & He'); [by eauto|].
      exists (f :: pre), file', post, (r :: results), e'.
      repeat split; [by constructor|done].
Qed.

(** C5. When the classifier fails on one of the uploaded files, the
    exception leaves [make_order] (nothing catches it) and the request
    ends as a failure. Nothing was stored: [orders] is as before and no
    [Order] instance or products list was created, so no partly built
    order exists anywhere. The classifier was called once on each file
    up to and including the first one it rejects, in upload order: the
    failed call is not repeated and later files are not tried. *)
Theorem make_order_failure_atomic (files : list UploadFile.t) (w : World) :
  (∃ file, file ∈ files ∧
           ∃ e, predict model (UploadFile.content file) config = inl e) →
  ∃ pre file post e w',
    files = pre ++ file :: post ∧
    (∀ f, f ∈ pre → ∃ r, predict model (UploadFile.content f) config = inr r) ∧
    predict model (UploadFile.content file) config = inl e ∧
    make_order Model Config predict files model config w = Raised e w' ∧
    status_code (make_order Model Config predict files model config w) = Some 500 ∧
    orders w' = orders w ∧
    order_heap w' = order_heap w ∧
    list_heap w' = list_heap w ∧
    classify_log w' = classify_log w ++ map UploadFile.content (pre ++ [file]).
Proof.
  intros (pre & file & post & results & e & -> & Hpre & He)%first_failure.
  assert (make_order Model Config predict (pre ++ file :: post) model config w =
          Raised e (classified w (map UploadFile.content (pre ++ [file])) (length pre)))
    as Hrun.
  { unfold make_order. unfold bind at 1.
    by rewrite (make_products_fail pre post file results e Hpre He). }
  exists pre, file, post, e. eexists. split; [done|]. split.
  { intros f Hf. unfold classifies in Hpre.
    apply list_elem_of_lookup in Hf as [i Hi].
    destruct (Forall2_lookup_l _ _ _ _ _ Hpre Hi) as (r & _ & Hr). eauto. }
  split; [done|]. split; [exact Hrun|]. rewrite Hrun. done.
Qed.

End ClassifierFacts.

Lemma make_order_failure_atomic_witness :
  ∃ pre file post e w',
    [file_good; file_bad; file_good] = pre ++ file :: post ∧
    (∀ f, f ∈ pre → ∃ r, sample_predict tt (UploadFile.content f) tt = inr r) ∧
    sample_predict tt (UploadFile.content file) tt = inl e ∧
    make_order unit unit sample_predict [file_good; file_bad; file_good] tt tt
      world_stored = Raised e w' ∧
    status_code (make_order unit unit sample_predict
                   [file_good; file_bad; file_good] tt tt world_stored) = Some 500 ∧
    orders w' = orders world_stored ∧
    order_heap w' = order_heap world_stored ∧
    list_heap w' = list_heap world_stored ∧
    classify_log w' =
      classify_log world_stored ++ map UploadFile.content (pre ++ [file]).
Proof.
  apply (make_order_failure_atomic sample_predict tt tt
           [file_good; file_bad; file_good] world_stored).
  exists file_bad. split.
  - apply list_elem_of_further, list_elem_of_here.
  - exists "cannot identify image file". reflexivity.
Defined.

Lemma World_ok_classified (w : World) (inputs : list (list Byte.byte)) (n : nat) :
  World_ok w → World_ok (classified w inputs n).
Proof. intros [Hlive Hlists]. by split. Qed.

Lemma lookup_stored (w : World) (l : loc) (o : Order.t) :
  World_ok w → l ∈ orders w → order_heap w !! l = Some o →
  ∃ found o',
    get_order_by_id (Order.id o) w = Returned (Some found) w ∧
    found ∈ orders w ∧
    order_heap w !! found = Some o' ∧ Order.id o' = Order.id o.
Proof.
  intros Hok Hin Ho.
  destruct (first_match_exists w l o Hok Hin Ho) as [found Hfound].
  pose proof (get_order_by_id_first w _ found Hok Hfound) as Hget.
  destruct Hfound as (pre & post & o' & Hos & Ho' & Hid & _).
  exists found, o'. repeat split; [done| |done..].
  rewrite Hos. apply elem_of_app. right. apply list_elem_of_here.
Qed.

(** C8. Lookup is correct. After an order is appended to the store,
    [get_order_by_id] with that order's identifier returns a stored order
    with the same identifier, and so it does after [make_order] stored
    the order it created; with an identifier that no stored order has it
    returns [None]. The lookup scans [orders] from the oldest entry and
    returns the first order whose identifier matches. It never changes
    the world. *)
Theorem lookup_correct (w : World) :
  World_ok w →
  (∀ order o,
     order_heap w !! order = Some o →
     ∃ w1 found o',
       orders_append order w = Returned tt w1 ∧
       get_order_by_id (Order.id o) w1 = Returned (Some found) w1 ∧
       order_heap w1 !! found = Some o' ∧ Order.id o' = Order.id o) ∧
  (∀ (Model Config : Type)
     (predict : Model → list Byte.byte → Config → exn + list Prediction)
     (model : Model) (config : Config) files results,
     classifies predict model config files results →
     ∃ order o w1 found o',
       make_order Model Config predict files model config w
         = Returned (BOrder order) w1 ∧
       order_heap w1 !! order = Some o ∧
       get_order_by_id (Order.id o) w1 = Returned (Some found) w1 ∧
       order_heap w1 !! found = Some o' ∧ Order.id o' = Order.id o) ∧
  (∀ order_id, absent w order_id → get_order_by_id order_id w = Returned None w) ∧
  (∀ order_id l,
     first_match w order_id l → get_order_by_id order_id w = Returned (Some l) w).
Proof.
  intros Hok. split; [|split; [|split]].
  - intros order o Ho.
    assert (World_ok (with_orders (orders w ++ [order]) w)) as Hok1.
    { apply World_ok_append; [done|]. by rewrite Ho. }
    destruct (lookup_stored (with_orders (orders w ++ [order]) w) order o Hok1)
      as (found & o' & Hget & _ & Ho' & Hid); [|done|].
    { simpl. apply elem_of_app. right. apply list_elem_of_here. }
    by exists (with_orders (orders w ++ [order]) w), found, o'.
  - intros Model Config predict model config files results Hcl.
    pose proof (make_order_ok predict model config files results w Hcl) as Hrun.
    simpl in Hrun.
    set (wc := classified w (map UploadFile.content files) (length files)) in *.
    set (ps := inference_products (uuid_src w) (uuid_pos w) results) in *.
    set (order := fresh (dom (order_heap w))) in *.
    assert (order_heap (created wc ps) !! order = Some (new_order_obj wc)) as Ho.
    { unfold created; simpl. apply lookup_insert_eq. }
    assert (World_ok (with_orders (orders w ++ [order]) (created wc ps))) as Hok1.
    { apply (World_ok_append (created wc ps) order).
      - by apply World_ok_created, World_ok_classified.
      - by rewrite Ho. }
    destruct (lookup_stored _ order (new_order_obj wc) Hok1)
      as (found & o' & Hget & _ & Ho' & Hid); [|exact Ho|].
    { simpl. apply elem_of_app. right. apply list_elem_of_here. }
    exists order, (new_order_obj wc),
      (with_orders (orders w ++ [order]) (created wc ps)), found, o'.
    done.
  - intros order_id. by apply get_order_by_id_absent.
  - intros order_id l. by apply get_order_by_id_first.
Qed.

Lemma lookup_correct_witness :
  get_order_by_id 0 world_stored = Returned (Some 0%nat) world_stored ∧
  get_order_by_id 99 world_stored = Returned None world_stored.
Proof.
  destruct (lookup_correct world_stored World_ok_world_stored)
    as (_ & _ & Habsent & Hfirst).
  split.
  - apply Hfirst. exists [], [], (new_order_obj world0).
    split; [reflexivity|]. split; [reflexivity|]. split; [reflexivity|].
    intros l' o' Hl'. by apply elem_of_nil in Hl'.
  - apply Habsent. by apply absent_world_stored.
Defined.

(* ===================================================================== *)
(** * The not-found answer *)
(* ===================================================================== *)

(** C6, as amended. For an identifier that no stored order has, each of
    [get_order] (GET /order/{order_id}), [update_order]
    (PATCH /order/{order_id}) and [get_bill] (GET /bill/{order_id})
    returns normally (no exception, so the status is 200) with the
    dictionary whose only key is [message]; the text it carries is the
    Korean sentence of the source, not "order not found". The world is
    left unchanged. *)
Theorem not_found_response (w : World) (order_id : UUID)
    (order_update : OrderUpdate.t) :
  World_ok w → absent w order_id →
  let body := BDict [("message", "주문 정보를 찾을 수 없습니다")] in
  get_order order_id w = Returned body w ∧
  update_order order_id order_update w = Returned body w ∧
  get_bill order_id w = Returned body w ∧
  status_code (get_order order_id w) = Some 200 ∧
  status_code (update_order order_id order_update w) = Some 200 ∧
  status_code (get_bill order_id w) = Some 200.
Proof.
  intros Hok Habs body.
  pose proof (get_order_by_id_absent w order_id Hok Habs) as Hget.
  assert (get_order order_id w = Returned body w) as H1.
  { unfold get_order, bind. by rewrite Hget. }
  assert (update_order order_id order_update w = Returned body w) as H2.
  { by apply update_order_absent. }
  assert (get_bill order_id w = Returned body w) as H3.
  { unfold get_bill, bind. by rewrite Hget. }
  rewrite H1, H2, H3. done.
Qed.

Lemma not_found_response_witness :
  get_order 99 world_stored =
    Returned (BDict [("message", "주문 정보를 찾을 수 없습니다")]) world_stored ∧
  get_bill 99 world_stored =
    Returned (BDict [("message", "주문 정보를 찾을 수 없습니다")]) world_stored.
Proof.
  destruct (not_found_response world_stored 99 (OrderUpdate.mk []))
    as (H1 & _ & H3 & _).
  - exact World_ok_world_stored.
  - by apply absent_world_stored.
  - split; assumption.
Defined.

(** C6 as stated fails: for an identifier that is not stored, the body
    none of the three handlers returns is
    [{"message": "order not found"}]. *)
Lemma not_found_body_counterexample :
  get_order 99 world_stored ≠
    Returned (BDict [("message", "order not found")]) world_stored ∧
  update_order 99 (OrderUpdate.mk []) world_stored ≠
    Returned (BDict [("message", "order not found")]) world_stored ∧
  get_bill 99 world_stored ≠
    Returned (BDict [("message", "order not found")]) world_stored.
Proof. split_and!; vm_compute; discriminate. Qed.

(* ===================================================================== *)
(** * Update of a stored order *)
(* ===================================================================== *)

Lemma update_loop_same (self : loc) (products : list Product.t) :
  ∀ (w : World) (v : OrderValue),
    snapshot w self = Some v →
    ∃ w' v',
      update_loop self products self w = Returned self w' ∧
      add_each self products w = Returned tt w' ∧
      orders w' = orders w ∧
      snapshot w' self = Some v' ∧
      v_products v' = fold_left add_product_pure products (v_products v) ∧
      v_id v' = v_id v ∧ v_created_at v' = v_created_at v.
Proof.
  induction products as [|p rest IH]; intros w v Hv.
  - exists w, v. done.
  - destruct (add_product_snapshot w self p v Hv)
      as (w1 & Hadd & Hos1 & v1 & Hv1 & Hps1 & Hid1 & Hc1).
    destruct (IH w1 v1 Hv1) as (w' & v' & Hloop & Heach & Hos & Hv' & Hps & Hid & Hc).
    exists w', v'. simpl. unfold bind. rewrite Hadd.
    repeat split; [done..|congruence|done| |congruence|congruence].
    by rewrite Hps, Hps1.
Qed.

Lemma Order_copy_run (w : World) (self : loc) (o : Order.t) :
  order_heap w !! self = Some o →
  Order_copy self w =
    Returned (fresh (dom (order_heap w)))
             (with_order_heap (<[fresh (dom (order_heap w)) := o]> (order_heap w)) w).
Proof. intros Ho. unfold Order_copy, bind, get_obj. by rewrite Ho. Qed.

Lemma World_ok_snapshot (w : World) (l : loc) (o : Order.t) :
  World_ok w → order_heap w !! l = Some o → ∃ v, snapshot w l = Some v.
Proof.
  intros [_ Hlists] Ho. destruct (Hlists l o Ho) as [ps Hps].
  eexists. by apply snapshot_Some.
Qed.

(** C4. When the store holds an order with the identifier,
    [update_order_by_id] takes the first such order and calls
    [add_product] on that one stored instance once for each supplied
    product, in their order, each call seeing what the earlier ones did;
    [orders] itself is not changed. It returns an order whose value is
    the value of the stored order after all these calls (the stored
    instance itself as soon as one product is supplied), and
    [update_order] hands that order back. The stored order keeps its
    identifier and creation time, and its products are the earlier ones
    followed by each supplied product whose id was not yet present. *)
Theorem update_found (w : World) (order_id : UUID) (order_update : OrderUpdate.t)
    (l0 : loc) (o0 : Order.t) :
  World_ok w →
  l0 ∈ orders w → order_heap w !! l0 = Some o0 → Order.id o0 = order_id →
  ∃ existing v updated w' v',
    first_match w order_id existing ∧
    snapshot w existing = Some v ∧
    update_order_by_id order_id order_update w = Returned (Some updated) w' ∧
    update_order order_id order_update w = Returned (BOrder updated) w' ∧
    (Order_copy existing ;; add_each existing (OrderUpdate.products order_update)) w
      = Returned tt w' ∧
    orders w' = orders w ∧
    snapshot w' existing = Some v' ∧
    snapshot w' updated = Some v' ∧
    (OrderUpdate.products order_update ≠ [] → updated = existing) ∧
    v_products v' =
      fold_left add_product_pure (OrderUpdate.products order_update) (v_products v) ∧
    v_id v' = order_id ∧ v_created_at v' = v_created_at v.
Proof.
  intros Hok Hin Ho0 Hid0. subst order_id.
  destruct (first_match_exists w l0 o0 Hok Hin Ho0) as [existing Hfirst].
  pose proof (get_order_by_id_first w _ existing Hok Hfirst) as Hget.
  pose proof Hfirst as (pre & post & o & Hos & Ho & Hid & _).
  destruct (World_ok_snapshot w existing o Hok Ho) as [v Hv].
  pose proof (snapshot_inv _ _ _ Hv) as (o1 & Ho1 & Hps & Hvid & Hvc & Hvu).
  assert (o1 = o) by congruence. subst o1.
  set (c := fresh (dom (order_heap w))).
  set (wc := with_order_heap (<[c := o]> (order_heap w)) w).
  assert (c ≠ existing) as Hne.
  { intros Heq. pose proof (fresh_order_None w) as Hfresh. fold c in Hfresh.
    rewrite Heq in Hfresh. congruence. }
  assert (snapshot wc existing = Some v) as Hvc1.
  { unfold snapshot, wc. simpl. rewrite lookup_insert_ne by done.
    rewrite Ho, Hps. destruct v; simpl in *; congruence. }
  assert (snapshot wc c = Some v) as Hvc2.
  { unfold snapshot, wc. simpl. rewrite lookup_insert_eq.
    rewrite Hps. destruct v; simpl in *; congruence. }
  pose proof (Order_copy_run w existing o Ho) as Hcopy. fold c in Hcopy. fold wc in Hcopy.
  destruct order_update as [products]. simpl.
  destruct products as [|p rest].
  - exists existing, v, c, wc, v.
    unfold update_order, update_order_by_id, bind. rewrite Hget, Hcopy. simpl.
    unfold ret.
    split_and!; try done; congruence.
  - destruct (add_product_snapshot wc existing p v Hvc1)
      as (w1 & Hadd & Hos1 & v1 & Hv1 & Hps1 & Hid1 & Hc1).
    destruct (update_loop_same existing rest w1 v1 Hv1)
      as (w' & v' & Hloop & Heach & Hos' & Hv' & Hps' & Hid' & Hc').
    exists existing, v, existing, w', v'.
    unfold update_order, update_order_by_id, bind. rewrite Hget, Hcopy.
    cbn [OrderUpdate.products update_loop add_each]. unfold bind.
    rewrite Hadd, Hloop, Heach. unfold ret.
    split_and!; try done; try congruence.
    + by rewrite Hos', Hos1.
    + by rewrite Hps', Hps1.
Qed.

Lemma update_found_witness :
  ∃ existing v updated w' v',
    first_match world_stored 0 existing ∧
    snapshot world_stored existing = Some v ∧
    update_order_by_id 0 (OrderUpdate.mk [product_b; product_c]) world_stored
      = Returned (Some updated) w' ∧
    update_order 0 (OrderUpdate.mk [product_b; product_c]) world_stored
      = Returned (BOrder updated) w' ∧
    (Order_copy existing ;; add_each existing [product_b; product_c]) world_stored
      = Returned tt w' ∧
    orders w' = orders world_stored ∧
    snapshot w' existing = Some v' ∧
    snapshot w' updated = Some v' ∧
    ([product_b; product_c] ≠ [] → updated = existing) ∧
    v_products v' =
      fold_left add_product_pure [product_b; product_c] (v_products v) ∧
    v_id v' = 0%N ∧ v_created_at v' = v_created_at v.
Proof.
  apply (update_found world_stored 0 (OrderUpdate.mk [product_b; product_c])
           0%nat (new_order_obj world0)).
  - exact World_ok_world_stored.
  - apply list_elem_of_here.
  - reflexivity.
  - reflexivity.
Defined.

(* ===================================================================== *)
(** * Distinct product ids *)
(* ===================================================================== *)

Lemma keeps_distinct_refl (w : World) : keeps_distinct w w.
Proof. by split. Qed.

Lemma keeps_distinct_trans (w1 w2 w3 : World) :
  keeps_distinct w1 w2 → keeps_distinct w2 w3 → keeps_distinct w1 w3.
Proof. intros [H1 E1] [H2 E2]. split; [auto|congruence]. Qed.

Lemma keeps_distinct_same_lists (w w' : World) :
  list_heap w' = list_heap w → uuid_src w' = uuid_src w → keeps_distinct w w'.
Proof. intros Hl Hu. split; [|done]. unfold lists_distinct. by rewrite Hl. Qed.

Lemma add_product_keeps (self : loc) (product : Product.t) (w w' : World) :
  final_world (add_product self product w) = Some w' → keeps_distinct w w'.
Proof.
  unfold add_product. run_monad.
  destruct (order_heap w !! self) as [o|] eqn:Ho; [|done]. simpl.
  destruct (list_heap w !! Order.products o) as [ps|] eqn:Hps; [|done]. simpl.
  case_bool_decide as Hin; simpl.
  - intros [= <-]. apply keeps_distinct_refl.
  - rewrite Hps. simpl. rewrite Ho. simpl. intros [= <-].
    split; [|done]. unfold lists_distinct. simpl. intros Hd.
    apply map_Forall_insert_2; [|done].
    unfold product_ids. rewrite map_app. simpl.
    apply NoDup_app. split; [by apply (Hd _ _ Hps)|]. split.
    + intros x Hx [->|[]%elem_of_nil]%elem_of_cons. done.
    + apply NoDup_singleton.
Qed.

Lemma add_product_result (self : loc) (product : Product.t) (w : World) :
  (∃ w', add_product self product w = Returned self w') ∨
  add_product self product w = Wrong.
Proof.
  unfold add_product. run_monad.
  destruct (order_heap w !! self) as [o|] eqn:Ho; [|by right]. simpl.
  destruct (list_heap w !! Order.products o) as [ps|] eqn:Hps; [|by right]. simpl.
  case_bool_decide; simpl; [by eauto|].
  rewrite Hps. simpl. rewrite Ho. simpl. eauto.
Qed.

Lemma update_loop_keeps (self : loc) (products : list Product.t) :
  ∀ (updated : loc) (w w' : World),
    final_world (update_loop self products updated w) = Some w' →
    keeps_distinct w w'.
Proof.
  induction products as [|p rest IH]; intros updated w w'; simpl.
  - intros [= <-]. apply keeps_distinct_refl.
  - unfold bind.
    destruct (add_product_result self p w) as [[w1 Hadd]|Hadd]; rewrite Hadd; [|done].
    intros Hrest. eapply keeps_distinct_trans; [|by eapply IH].
    apply (add_product_keeps self p). by rewrite Hadd.
Qed.

Lemma next_order_pure (os : list loc) (order_id : UUID) (w : World) :
  (∃ r, next_order os order_id w = Returned r w) ∨ next_order os order_id w = Wrong.
Proof.
  induction os as [|l os IH]; simpl; [left; by eexists|].
  run_monad. destruct (order_heap w !! l) as [o|]; [|by right]. simpl.
  case_bool_decide; [left; by eexists|done].
Qed.

Lemma update_order_by_id_keeps (order_id : UUID) (order_update : OrderUpdate.t)
    (w w' : World) :
  final_world (update_order_by_id order_id order_update w) = Some w' →
  keeps_distinct w w'.
Proof.
  unfold update_order_by_id, bind, get_order_by_id.
  destruct (next_order_pure (orders w) order_id w) as [[r Hr]|Hr]; rewrite Hr; [|done].
  destruct r as [existing|]; simpl; [|intros [= <-]; apply keeps_distinct_refl].
  unfold Order_copy, bind, get_obj.
  destruct (order_heap w !! existing) as [o|]; [|done]. simpl.
  match goal with
  | |- context [update_loop ?s ?ps ?u ?w1] =>
      pose proof (update_loop_keeps s ps u w1) as Hloop;
      destruct (update_loop s ps u w1) as [r w2|e w2|]; simpl; [| |done]
  end; intros [= <-]; (eapply keeps_distinct_trans; [|by apply Hloop]);
    by apply keeps_distinct_same_lists.
Qed.

Lemma inference_products_ids (src : nat → UUID) (results : list (list Prediction)) :
  ∀ pos, product_ids (inference_products src pos results)
         = map src (seq pos (length results)).
Proof.
  induction results as [|r rest IH]; intros pos; simpl; [done|].
  by rewrite IH.
Qed.

Lemma created_keeps (w : World) (ps : list Product.t) :
  NoDup (product_ids ps) → keeps_distinct w (created w ps).
Proof.
  intros Hnd. split; [|done]. unfold lists_distinct. simpl. intros Hd.
  by apply map_Forall_insert_2.
Qed.

Lemma classifies_or_fails {Model Config : Type}
    (predict : Model → list Byte.byte → Config → exn + list Prediction)
    (model : Model) (config : Config) (files : list UploadFile.t) :
  (∃ results, classifies predict model config files results) ∨
  (∃ file, file ∈ files ∧
           ∃ e, predict model (UploadFile.content file) config = inl e).
Proof.
  induction files as [|f files IH]; [left; exists []; constructor|].
  destruct (predict model (UploadFile.content f) config) as [e|r] eqn:Hr.
  - right. exists f. split; [apply list_elem_of_here|eauto].
  - destruct IH as [[results Hcl]|(file & Hin & Hfail)].
    + left. exists (r :: results). by constructor.
    + right. exists file. split; [by apply list_elem_of_further|done].
Qed.

Lemma make_products_outcome {Model Config : Type}
    (predict : Model → list Byte.byte → Config → exn + list Prediction)
    (model : Model) (config : Config) (files : list UploadFile.t) :
  ∀ (products : list Product.t) (w : World),
    (∃ results,
       length results = length files ∧
       make_products Model Config predict files model config products w =
         Returned (products ++ inference_products (uuid_src w) (uuid_pos w) results)
                  (classified w (map UploadFile.content files) (length files))) ∨
    (∃ e inputs n,
       make_products Model Config predict files model config products w =
         Raised e (classified w inputs n)).
Proof.
  intros products w.
  destruct (classifies_or_fails predict model config files)
    as [[results Hcl]|Hfail].
  - left. exists results. split; [symmetry; by eapply Forall2_length|].
    by apply make_products_ok.
  - right.
    destruct (first_failure predict model config files Hfail)
      as (pre & f & post & results & e & -> & Hpre & He).
    exists e. do 2 eexists.
    by apply (make_products_fail predict model config pre post f results).
Qed.

Lemma classified_keeps (w : World) (inputs : list (list Byte.byte)) (n : nat) :
  keeps_distinct w (classified w inputs n).
Proof. by apply keeps_distinct_same_lists. Qed.

Lemma make_order_keeps {Model Config : Type}
    (predict : Model → list Byte.byte → Config → exn + list Prediction)
    (files : list UploadFile.t) (model : Model) (config : Config) (w w' : World) :
  Inj (=) (=) (uuid_src w) →
  final_world (make_order Model Config predict files model config w) = Some w' →
  keeps_distinct w w'.
Proof.
  intros Hinj. unfold make_order. unfold bind at 1.
  destruct (make_products_outcome predict model config files [] w)
    as [(results & Hlen & ->)|(e & inputs & n & ->)].
  - unfold bind at 1. rewrite Order_new_run. simpl. intros [= <-].
    eapply keeps_distinct_trans; [apply classified_keeps|].
    eapply keeps_distinct_trans; [apply created_keeps|by apply keeps_distinct_same_lists].
    rewrite inference_products_ids. apply NoDup_fmap_2; [done|apply NoDup_seq].
  - simpl. intros [= <-]. apply classified_keeps.
Qed.

Lemma get_order_keeps (order_id : UUID) (w w' : World) :
  final_world (get_order order_id w) = Some w' → keeps_distinct w w'.
Proof.
  unfold get_order, bind, get_order_by_id.
  destruct (next_order_pure (orders w) order_id w) as [[r Hr]|Hr]; rewrite Hr; [|done].
  destruct r; simpl; intros [= <-]; apply keeps_distinct_refl.
Qed.

Lemma get_bill_keeps (order_id : UUID) (w w' : World) :
  final_world (get_bill order_id w) = Some w' → keeps_distinct w w'.
Proof.
  unfold get_bill, bind, get_order_by_id.
  destruct (next_order_pure (orders w) order_id w) as [[r Hr]|Hr]; rewrite Hr; [|done].
  destruct r as [found|]; simpl; [|intros [= <-]; apply keeps_distinct_refl].
  unfold bill. run_monad.
  destruct (order_heap w !! found) as [o|]; [|done]. simpl.
  destruct (list_heap w !! Order.products o); [|done]. simpl.
  intros [= <-]. apply keeps_distinct_refl.
Qed.

Lemma step_keeps (w w' : World) :
  Inj (=) (=) (uuid_src w) → step w w' → keeps_distinct w w'.
Proof.
  intros Hinj Hstep. destruct Hstep as
    [ps w' Hnd H | self product w' H | Model Config predict files model config w' H
    | order_id order_update w' H | w' H | order_id w' H | order_id w' H].
  - rewrite Order_new_run in H. injection H as <-. by apply created_keeps.
  - by eapply add_product_keeps.
  - by eapply make_order_keeps.
  - apply (update_order_by_id_keeps order_id order_update).
    unfold update_order, bind in H.
    destruct (update_order_by_id order_id order_update w) as [[r|] w1|e w1|];
      simpl in *; congruence.
  - injection H as <-. apply keeps_distinct_refl.
  - by eapply get_order_keeps.
  - by eapply get_bill_keeps.
Qed.

Lemma reachable_invariant (w : World) :
  reachable w → lists_distinct w ∧ Inj (=) (=) (uuid_src w).
Proof.
  induction 1 as [w (Hoh & Hlh & Hos & Hinj)|w w' Hreach [Hd Hinj] Hstep].
  - split; [|done]. unfold lists_distinct. rewrite Hlh. apply map_Forall_empty.
  - destruct (step_keeps w w' Hinj Hstep) as [Hkeep Hsrc].
    split; [auto|]. by rewrite Hsrc.
Qed.

(** C9, as amended. In every world the service can reach from a fresh
    process, no two products of an order share an [id], provided every
    order was constructed empty, from an initial product sequence with
    pairwise distinct ids, or by [make_order] (with [uuid4()] never
    repeating a value), and was changed only by [add_product] and the
    update operation. The constructor itself does not check the initial
    sequence it is given. *)
Theorem products_distinct_invariant (w : World) :
  reachable w → products_distinct w.
Proof.
  intros [Hd _]%reachable_invariant l o ps _ Hps. by apply (Hd _ _ Hps).
Qed.

Lemma initial_world0 : initial world0.
Proof. repeat split. intros x y H. by apply Nat2N.inj. Qed.

Lemma reachable_world_served : reachable world_served.
Proof.
  eapply reachable_step.
  - eapply reachable_step; [apply reachable_initial, initial_world0|].
    apply (step_make_order world0 unit unit sample_predict
             [file_good; file_good] tt tt). vm_compute. reflexivity.
  - apply (step_update_order _ 2 (OrderUpdate.mk [product_a; product_a; product_b])).
    vm_compute. reflexivity.
Qed.

Lemma products_distinct_invariant_witness :
  snapshot world_served 0%nat ≠ None ∧ products_distinct world_served.
Proof.
  split; [vm_compute; discriminate|].
  apply (products_distinct_invariant world_served).
  exact reachable_world_served.
Defined.

(** C9 as stated fails: an order constructed from an initial sequence
    that holds the same product twice keeps both. *)
Lemma prepopulated_duplicates_counterexample :
  ∃ l w',
    Order_new [product_a; product_a] world0 = Returned l w' ∧
    snapshot w' l = Some (mkOrderValue 0 [product_a; product_a] 0 1) ∧
    ¬ products_distinct w'.
Proof.
  exists 0%nat, (created world0 [product_a; product_a]).
  split; [reflexivity|]. split; [reflexivity|].
  intros Hd.
  specialize (Hd 0%nat (new_order_obj world0) [product_a; product_a]
                eq_refl eq_refl).
  apply NoDup_cons in Hd as [Hnotin _]. apply Hnotin. apply list_elem_of_here.
Qed.

(* ===================================================================== *)
(** * Exact binary64 arithmetic on small integers *)
(* ===================================================================== *)

Lemma digits2_pos_log2 (p : positive) :
  Zpos (digits2_pos p) = Z.log2 (Zpos p) + 1.
Proof.
  assert (digits2_pos p = Pos.size p) as ->.
  { induction p; simpl; congruence. }
  destruct p; simpl; lia.
Qed.

Lemma iter_xO_pow2 (p d : positive) :
  Zpos (Pos.iter xO p d) = Zpos p * 2 ^ Zpos d.
Proof.
  rewrite <- Z.shiftl_mul_pow2 by lia. unfold Z.shiftl.
  apply (Pos.iter_swap_gen _ _ Zpos xO (Z.mul 2)). reflexivity.
Qed.

Lemma shr_1_double (x : Z) :
  0 < x →
  shr_1 (Build_shr_record (2 * x) false false) = Build_shr_record x false false.
Proof. destruct x; simpl; intros; try lia; reflexivity. Qed.

Lemma pow2_xO (n : positive) : 2 ^ Zpos n~0 = 2 ^ Zpos n * 2 ^ Zpos n.
Proof. rewrite <- Z.pow_add_r by lia. f_equal. lia. Qed.

Lemma pow2_xI (n : positive) : 2 ^ Zpos n~1 = 2 * (2 ^ Zpos n * 2 ^ Zpos n).
Proof.
  rewrite <- Z.pow_add_r, <- Z.pow_succ_r by lia. f_equal. lia.
Qed.

Lemma iter_shr_exact (n : positive) :
  ∀ x, 0 < x →
  SpecFloat.iter_pos shr_1 n (Build_shr_record (x * 2 ^ Zpos n) false false)
  = Build_shr_record x false false.
Proof.
  induction n as [n IH|n IH|]; intros x Hx; cbn [SpecFloat.iter_pos].
  - assert (0 < 2 ^ Zpos n) as Hp by (apply Z.pow_pos_nonneg; lia).
    rewrite pow2_xI.
    replace (x * (2 * (2 ^ Zpos n * 2 ^ Zpos n)))
      with (2 * ((x * 2 ^ Zpos n) * 2 ^ Zpos n)) by ring.
    rewrite shr_1_double by nia. rewrite IH by nia. by apply IH.
  - assert (0 < 2 ^ Zpos n) as Hp by (apply Z.pow_pos_nonneg; lia).
    rewrite pow2_xO, Z.mul_assoc. rewrite IH by nia. by apply IH.
  - rewrite Z.mul_comm. by apply shr_1_double.
Qed.

Lemma log2_bounds (c : Z) :
  0 < c < 2 ^ 53 → 0 ≤ Z.log2 c < 53.
Proof.
  intros [Hpos Hlt]. split; [apply Z.log2_nonneg|].
  by apply Z.log2_lt_pow2.
Qed.

Lemma log2_scaled (c j : Z) :
  0 < c → 0 ≤ j → Z.log2 (c * 2 ^ j) = Z.log2 c + j.
Proof. intros. rewrite Z.log2_mul_pow2 by lia. lia. Qed.


Lemma shr_exact (m e n : Z) (q : positive) :
  0 ≤ n → m = Zpos q * 2 ^ n →
  shr (Build_shr_record m false false) e n = (Build_shr_record (Zpos q) false false, e + n).
Proof.
  intros Hn ->. unfold shr. destruct n as [|n|n]; [|by rewrite iter_shr_exact|lia].
  by rewrite Z.mul_1_r, Z.add_0_r.
Qed.

Lemma binary_round_aux_exact (m q : positive) (e n : Z) :
  0 ≤ n → Zpos m = Zpos q * 2 ^ n → Z.log2 (Zpos q) = 52 →
  -1074 ≤ e + n ≤ 971 →
  binary_round_aux 53 1024 false (Zpos m) e loc_Exact = S754_finite false q (e + n).
Proof.
  intros Hn Hm Hq He. unfold binary_round_aux, shr_fexp.
  cbn [Zdigits2 shr_record_of_loc].
  rewrite digits2_pos_log2, Hm, log2_scaled, Hq by lia.
  replace (fexp 53 1024 (52 + n + 1 + e) - e) with n by (unfold fexp, emin; lia).
  rewrite (shr_exact _ e n q) by lia.
  cbn [shr_m loc_of_shr_record round_nearest_even Zdigits2 shr_record_of_loc].
  rewrite digits2_pos_log2, Hq.
  replace (fexp 53 1024 (52 + 1 + (e + n)) - (e + n)) with 0 by (unfold fexp, emin; lia).
  cbn [shr shr_m].
  destruct (Z.leb_spec (e + n) (1024 - 53)); [done|lia].
Qed.

Lemma binary_round_canon (p : positive) (c j : Z) :
  0 < c < 2 ^ 53 → 0 ≤ j ≤ 1000 → Zpos p = c * 2 ^ j →
  binary_round 53 1024 false p (- j) = canon c.
Proof.
  intros Hc Hj Hp.
  pose proof (log2_bounds c Hc) as Hlog.
  assert (Zpos (digits2_pos p) = Z.log2 c + j + 1) as Hdig.
  { rewrite digits2_pos_log2, Hp, log2_scaled by lia. lia. }
  assert (0 < c * 2 ^ (53 - (Z.log2 c + 1))) as Hq.
  { apply Z.mul_pos_pos; [lia|]. apply Z.pow_pos_nonneg; lia. }
  assert (Z.log2 (Zpos (Z.to_pos (c * 2 ^ (53 - (Z.log2 c + 1))))) = 52) as Hq52.
  { rewrite Z2Pos.id by done. rewrite log2_scaled by lia. lia. }
  unfold binary_round. rewrite Hdig.
  replace (fexp 53 1024 (Z.log2 c + j + 1 + - j)) with (Z.log2 c + 1 - 53)
    by (unfold fexp, emin; lia).
  unfold shl_align, canon.
  destruct (Z.log2 c + 1 - 53 - - j) as [|d|d] eqn:Hd.
  - replace (Z.log2 c + 1 - 53) with (- j + 0) by lia.
    apply binary_round_aux_exact; [lia| |done|lia].
    rewrite Z2Pos.id by done. rewrite Hp. replace (53 - (Z.log2 c + 1)) with j by lia.
    lia.
  - replace (Z.log2 c + 1 - 53) with (- j + Zpos d) by lia.
    apply binary_round_aux_exact; [lia| |done|lia].
    rewrite Z2Pos.id by done. rewrite Hp, <- Z.mul_assoc, <- Z.pow_add_r by lia.
    f_equal. f_equal. lia.
  - replace (Z.log2 c + 1 - 53) with ((Z.log2 c + 1 - 53) + 0) at 2 by lia.
    apply binary_round_aux_exact; [lia| |done|lia].
    rewrite Z2Pos.id by done. rewrite iter_xO_pow2, Hp, <- Z.mul_assoc, <- Z.pow_add_r by lia.
    rewrite Z.mul_1_r. f_equal. f_equal. lia.
Qed.

Lemma float_of_int_canon (c : Z) :
  0 < c < 2 ^ 53 → float_of_int c = canon c.
Proof.
  intros Hc. unfold float_of_int, binary_normalize.
  destruct c as [|p|p]; [lia| |lia].
  apply (binary_round_canon p (Zpos p) 0); lia.
Qed.

Lemma shl_align_value (m : positive) (e e' : Z) :
  e' ≤ e → Zpos (fst (shl_align m e e')) = Zpos m * 2 ^ (e - e').
Proof.
  intros He. unfold shl_align.
  destruct (e' - e) as [|d|d] eqn:Hd; cbn [fst].
  - replace (e - e') with 0 by lia. lia.
  - lia.
  - rewrite iter_xO_pow2. f_equal. f_equal. lia.
Qed.

Lemma float_add_canon (a b : Z) :
  0 < a → 0 < b → a + b < 2 ^ 53 →
  float_add (canon a) (canon b) = canon (a + b).
Proof.
  intros Ha Hb Hab.
  pose proof (log2_bounds a ltac:(lia)) as Hla.
  pose proof (log2_bounds b ltac:(lia)) as Hlb.
  assert (∀ c, 0 < c → 0 ≤ Z.log2 c < 53 →
               Zpos (Z.to_pos (c * 2 ^ (53 - (Z.log2 c + 1))))
               = c * 2 ^ (53 - (Z.log2 c + 1))) as Hmant.
  { intros c Hc Hl. apply Z2Pos.id. apply Z.mul_pos_pos; [lia|].
    apply Z.pow_pos_nonneg; lia. }
  unfold float_add, canon, SFadd. cbn [cond_Zopp].
  set (ea := Z.log2 a + 1 - 53). set (eb := Z.log2 b + 1 - 53).
  set (ez := Z.min ea eb).
  rewrite !shl_align_value by lia. rewrite !Hmant by lia.
  assert (a * 2 ^ (53 - (Z.log2 a + 1)) * 2 ^ (ea - ez) +
          b * 2 ^ (53 - (Z.log2 b + 1)) * 2 ^ (eb - ez) = (a + b) * 2 ^ (- ez)) as Hsum.
  { rewrite <- !Z.mul_assoc, <- !Z.pow_add_r by lia.
    replace (53 - (Z.log2 a + 1) + (ea - ez)) with (- ez) by lia.
    replace (53 - (Z.log2 b + 1) + (eb - ez)) with (- ez) by lia. ring. }
  rewrite Hsum.
  assert (0 < (a + b) * 2 ^ (- ez)) as Hpos.
  { apply Z.mul_pos_pos; [lia|]. apply Z.pow_pos_nonneg; lia. }
  unfold binary_normalize.
  destruct ((a + b) * 2 ^ (- ez)) as [|p|p] eqn:Hp; [lia| |lia].
  replace ez with (- (- ez)) at 1 by lia.
  apply (binary_round_canon p (a + b) (- ez)); lia.
Qed.

Lemma float_add_int (a b : Z) :
  0 < a → 0 < b → a + b < 2 ^ 53 →
  float_add (float_of_int a) (float_of_int b) = float_of_int (a + b).
Proof.
  intros Ha Hb Hab. rewrite !float_of_int_canon by lia. by apply float_add_canon.
Qed.

Lemma float_as_int_canon (c : Z) :
  0 < c < 2 ^ 53 → float_as_int (canon c) = Some c.
Proof.
  intros Hc. pose proof (log2_bounds c Hc) as Hlog.
  assert (0 < 2 ^ (53 - (Z.log2 c + 1))) as Hpow by (apply Z.pow_pos_nonneg; lia).
  unfold canon, float_as_int. rewrite Z2Pos.id by nia.
  destruct (Z.leb_spec 0 (Z.log2 c + 1 - 53)) as [Hle|Hlt].
  - replace (Z.log2 c + 1 - 53) with 0 by lia.
    replace (53 - (Z.log2 c + 1)) with 0 by lia. simpl. f_equal. lia.
  - replace (- (Z.log2 c + 1 - 53)) with (53 - (Z.log2 c + 1)) by lia.
    rewrite Z.mod_mul by lia. simpl. rewrite Z.div_mul by lia. done.
Qed.

Lemma float_as_int_of_int (c : Z) :
  0 ≤ c < 2 ^ 53 → float_as_int (float_of_int c) = Some c.
Proof.
  intros Hc. destruct (decide (c = 0)) as [->|Hne]; [done|].
  rewrite float_of_int_canon by lia. apply float_as_int_canon. lia.
Qed.

(* ===================================================================== *)
(** * The bill of a new order *)
(* ===================================================================== *)

Lemma inference_products_length (src : nat → UUID) (results : list (list Prediction)) :
  ∀ pos, length (inference_products src pos results) = length results.
Proof. induction results as [|r rest IH]; intros pos; simpl; [done|]. by rewrite IH. Qed.

Lemma inference_products_fixed (src : nat → UUID) (results : list (list Prediction)) :
  ∀ pos p, p ∈ inference_products src pos results →
           Product.name p = "inference_image_product" ∧
           Product.price p = price_default.
Proof.
  induction results as [|r rest IH]; intros pos p; simpl.
  - by intros ?%elem_of_nil.
  - intros [->|Hin]%elem_of_cons; [done|]. by eapply IH.
Qed.

Lemma inference_products_prices (src : nat → UUID) (results : list (list Prediction)) :
  ∀ pos, map (λ product, PyFloat (Product.price product))
             (inference_products src pos results)
         = repeat (PyFloat price_default) (length results).
Proof. induction results as [|r rest IH]; intros pos; simpl; [done|]. by rewrite IH. Qed.

Lemma py_sum_repeat_default (n : nat) :
  100 * Z.of_nat n < 2 ^ 53 →
  py_sum (repeat (PyFloat price_default) n) =
    match n with
    | O => PyInt 0
    | S _ => PyFloat (float_of_int (100 * Z.of_nat n))
    end.
Proof.
  induction n as [|n IH]; intros Hn; [done|].
  cbn [repeat]. rewrite repeat_cons, py_sum_snoc, IH by lia.
  destruct n as [|n]; [done|].
  cbn [py_add]. unfold price_default. rewrite float_add_int by lia.
  do 2 f_equal. lia.
Qed.

(** C10. Every product that [make_order] creates carries the name
    "inference_image_product" and the price 100.0, whatever was uploaded
    and whatever the classifier answered. The bill of the order created
    from [n] files is then 100 * n; the sum is exact as long as that
    number lies in the range where binary64 represents every integer
    (below 2^53). For no file at all the bill is the integer 0. *)
Theorem new_order_bill (Model Config : Type)
    (predict : Model → list Byte.byte → Config → exn + list Prediction)
    (model : Model) (config : Config)
    (files : list UploadFile.t) (results : list (list Prediction)) (w : World) :
  classifies predict model config files results →
  ∃ order w' v,
    make_order Model Config predict files model config w = Returned (BOrder order) w' ∧
    snapshot w' order = Some v ∧
    length (v_products v) = length files ∧
    (∀ p, p ∈ v_products v →
          Product.name p = "inference_image_product" ∧
          Product.price p = S754_finite false 7036874417766400 (-46) ∧
          float_as_int (Product.price p) = Some 100) ∧
    (100 * Z.of_nat (length files) < 2 ^ 53 →
     ∃ b, bill order w' = Returned b w' ∧
          b = match files with
              | [] => PyInt 0
              | _ => PyFloat (float_of_int (100 * Z.of_nat (length files)))
              end ∧
          py_as_int b = Some (100 * Z.of_nat (length files))).
Proof.
  intros Hcl.
  pose proof (make_order_ok predict model config files results w Hcl) as Hrun.
  simpl in Hrun.
  set (wc := classified w (map UploadFile.content files) (length files)) in *.
  set (ps := inference_products (uuid_src w) (uuid_pos w) results) in *.
  set (order := fresh (dom (order_heap w))) in *.
  set (w' := with_orders (orders w ++ [order]) (created wc ps)) in *.
  assert (length results = length files) as Hlen.
  { symmetry. by eapply Forall2_length. }
  assert (snapshot w' order =
          Some (mkOrderValue (uuid_src wc (uuid_pos wc)) ps
                  (clock wc (clock_pos wc)) (clock wc (S (clock_pos wc))))) as Hsnap.
  { unfold snapshot, w', created. simpl.
    rewrite lookup_insert_eq. simpl. by rewrite lookup_insert_eq. }
  exists order, w'. eexists. split; [exact Hrun|]. split; [exact Hsnap|].
  cbn [v_products]. split.
  { unfold ps. by rewrite inference_products_length. }
  split.
  { intros p Hp. destruct (inference_products_fixed _ _ _ _ Hp) as [Hname Hprice].
    rewrite Hprice. done. }
  intros Hbound. eexists. split; [by apply (bill_run _ _ _ Hsnap)|].
  cbn [v_products]. unfold ps.
  rewrite inference_products_prices, Hlen, py_sum_repeat_default by done.
  destruct files as [|f files]; [done|]. split; [done|].
  cbn [py_as_int]. apply float_as_int_of_int. lia.
Qed.

Lemma new_order_bill_witness :
  ∃ order w' v,
    make_order unit unit sample_predict [file_good; file_good] tt tt world0
      = Returned (BOrder order) w' ∧
    snapshot w' order = Some v ∧
    length (v_products v) = 2%nat ∧
    (∀ p, p ∈ v_products v →
          Product.name p = "inference_image_product" ∧
          Product.price p = S754_finite false 7036874417766400 (-46) ∧
          float_as_int (Product.price p) = Some 100) ∧
    (100 * Z.of_nat 2 < 2 ^ 53 →
     ∃ b, bill order w' = Returned b w' ∧
          b = PyFloat (float_of_int (100 * Z.of_nat 2)) ∧
          py_as_int b = Some (100 * Z.of_nat 2)).
Proof.
  apply (new_order_bill unit unit sample_predict tt tt
           [file_good; file_good] [["even"]; ["even"]] world0).
  repeat constructor.
Defined.

(* ===================================================================== *)
(** * Operations as sequences of elementary changes *)
(* ===================================================================== *)

Lemma add_product_cases (self : loc) (product : Product.t) (w w' : World) :
  final_world (add_product self product w) = Some w' →
  w' = w ∨ prim w w'.
Proof.
  unfold add_product. run_monad.
  destruct (order_heap w !! self) as [o|] eqn:Ho; [|done]. simpl.
  destruct (list_heap w !! Order.products o) as [ps|] eqn:Hps; [|done]. simpl.
  case_bool_decide as Hin; simpl.
  - intros [= <-]. by left.
  - rewrite Hps. simpl. rewrite Ho. simpl. intros [= <-]. right.
    by apply (prim_append w self o ps product).
Qed.

Lemma add_product_prims (self : loc) (product : Product.t) (w w' : World) :
  final_world (add_product self product w) = Some w' → rtc prim w w'.
Proof.
  intros [->|Hprim]%add_product_cases; [done|]. by apply rtc_once.
Qed.

Lemma update_loop_prims (self : loc) (products : list Product.t) :
  ∀ (updated : loc) (w w' : World),
    final_world (update_loop self products updated w) = Some w' → rtc prim w w'.
Proof.
  induction products as [|p rest IH]; intros updated w w'; simpl.
  - by intros [= <-].
  - unfold bind.
    destruct (add_product_result self p w) as [[w1 Hadd]|Hadd]; rewrite Hadd; [|done].
    intros Hrest. etrans; [|by eapply IH].
    apply (add_product_prims self p). by rewrite Hadd.
Qed.

Lemma get_order_by_id_pure (order_id : UUID) (w : World) :
  (∃ r, get_order_by_id order_id w = Returned r w) ∨
  get_order_by_id order_id w = Wrong.
Proof. apply next_order_pure. Qed.

Lemma update_order_by_id_prims (order_id : UUID) (order_update : OrderUpdate.t)
    (w w' : World) :
  final_world (update_order_by_id order_id order_update w) = Some w' →
  rtc prim w w'.
Proof.
  unfold update_order_by_id, bind.
  destruct (get_order_by_id_pure order_id w) as [[r Hr]|Hr]; rewrite Hr; [|done].
  destruct r as [existing|]; simpl; [|by intros [= <-]].
  unfold Order_copy, bind, get_obj.
  destruct (order_heap w !! existing) as [o|] eqn:Ho; [|done]. simpl.
  fold (copied w o).
  match goal with
  | |- context [update_loop ?s ?ps ?u ?w1] =>
      pose proof (update_loop_prims s ps u w1) as Hloop;
      destruct (update_loop s ps u w1) as [r w2|e w2|]; simpl; [| |done]
  end; intros [= <-];
    (eapply rtc_l; [by apply (prim_copy w existing o)|by apply Hloop]).
Qed.

Lemma update_order_final (order_id : UUID) (order_update : OrderUpdate.t)
    (w w' : World) :
  final_world (update_order order_id order_update w) = Some w' →
  final_world (update_order_by_id order_id order_update w) = Some w'.
Proof.
  unfold update_order, bind.
  destruct (update_order_by_id order_id order_update w) as [[r|] w1|e w1|]; done.
Qed.

Lemma get_order_final (order_id : UUID) (w w' : World) :
  final_world (get_order order_id w) = Some w' → w' = w.
Proof.
  unfold get_order, bind.
  destruct (get_order_by_id_pure order_id w) as [[r Hr]|Hr]; rewrite Hr; [|done].
  destruct r; simpl; by intros [= <-].
Qed.

Lemma bill_pure (self : loc) (w : World) :
  (∃ b, bill self w = Returned b w) ∨ bill self w = Wrong.
Proof.
  unfold bill. run_monad.
  destruct (order_heap w !! self) as [o|]; [|by right]. simpl.
  destruct (list_heap w !! Order.products o); [|by right]. simpl. eauto.
Qed.

Lemma get_bill_final (order_id : UUID) (w w' : World) :
  final_world (get_bill order_id w) = Some w' → w' = w.
Proof.
  unfold get_bill, bind.
  destruct (get_order_by_id_pure order_id w) as [[r Hr]|Hr]; rewrite Hr; [|done].
  destruct r as [found|]; simpl; [|by intros [= <-]].
  destruct (bill_pure found w) as [[b Hb]|Hb]; rewrite Hb; [|done].
  simpl. by intros [= <-].
Qed.

Lemma make_order_prims {Model Config : Type}
    (predict : Model → list Byte.byte → Config → exn + list Prediction)
    (files : list UploadFile.t) (model : Model) (config : Config) (w w' : World) :
  final_world (make_order Model Config predict files model config w) = Some w' →
  rtc prim w w'.
Proof.
  unfold make_order. unfold bind at 1.
  destruct (make_products_outcome predict model config files [] w)
    as [(results & Hlen & ->)|(e & inputs & n & ->)].
  - unfold bind at 1. rewrite Order_new_run. simpl. intros [= <-].
    eapply rtc_l; [apply prim_classified|]. apply rtc_once.
    apply (prim_store (classified w (map UploadFile.content files) (length files))).
  - simpl. intros [= <-]. apply rtc_once, prim_classified.
Qed.

Lemma step_prims (w w' : World) : step w w' → rtc prim w w'.
Proof.
  intros Hstep. destruct Hstep as
    [ps w' Hnd H | self product w' H | Model Config predict files model config w' H
    | order_id order_update w' H | w' H | order_id w' H | order_id w' H].
  - rewrite Order_new_run in H. injection H as <-. apply rtc_once, prim_create.
  - by eapply add_product_prims.
  - by eapply make_order_prims.
  - by eapply update_order_by_id_prims, update_order_final.
  - by injection H as <-.
  - by apply get_order_final in H as ->.
  - by apply get_bill_final in H as ->.
Qed.


(* ===================================================================== *)
(** * Nothing is removed or rewritten *)
(* ===================================================================== *)

Lemma extends_refl (w : World) : extends w w.
Proof. unfold extends. split_and!; eauto 10. Qed.

Lemma extends_trans (w1 w2 w3 : World) :
  extends w1 w2 → extends w2 w3 → extends w1 w3.
Proof.
  intros (Ho1 & Hh1 & Hl1 & Hu1 & Hc1 & Hup1 & Hcp1 & Hg1)
         (Ho2 & Hh2 & Hl2 & Hu2 & Hc2 & Hup2 & Hcp2 & Hg2).
  unfold extends. split_and!; try (etrans; done); try congruence; try lia.
  - intros l o Ho. destruct (Hh1 l o Ho) as (o' & Ho' & ? & ? & ?).
    destruct (Hh2 l o' Ho') as (o2 & Ho2' & ? & ? & ?).
    exists o2. split_and!; congruence.
  - intros pl ps Hps. destruct (Hl1 pl ps Hps) as (ps' & Hps' & ?).
    destruct (Hl2 pl ps' Hps') as (ps2 & Hps2 & ?).
    exists ps2. split; [done|]. by etrans.
Qed.

Lemma keep_order_insert_fresh (h : gmap loc Order.t) (o : Order.t) :
  ∀ l o0, h !! l = Some o0 →
    ∃ o', <[fresh (dom h) := o]> h !! l = Some o' ∧
          Order.id o' = Order.id o0 ∧
          Order.products o' = Order.products o0 ∧
          Order.created_at o' = Order.created_at o0.
Proof.
  intros l o0 Hl. exists o0. split; [|done].
  rewrite lookup_insert_ne; [done|]. intros <-.
  pose proof (is_fresh (dom h)) as Hfresh. apply not_elem_of_dom in Hfresh. congruence.
Qed.

Lemma keep_list_insert_fresh (h : gmap loc (list Product.t)) (ps : list Product.t) :
  ∀ pl ps0, h !! pl = Some ps0 →
    ∃ ps', <[fresh (dom h) := ps]> h !! pl = Some ps' ∧ ps0 `prefix_of` ps'.
Proof.
  intros pl ps0 Hpl. exists ps0. split; [|done].
  rewrite lookup_insert_ne; [done|]. intros <-.
  pose proof (is_fresh (dom h)) as Hfresh. apply not_elem_of_dom in Hfresh. congruence.
Qed.

Lemma prim_extends (w w' : World) : prim w w' → extends w w'.
Proof.
  intros Hprim. destruct Hprim as
    [w self o ps product Ho Hps Hin | w self o Ho | w ps | w inputs n | w ps];
    unfold extends; simpl.
  - split_and!; try done; try lia.
    + intros l o0 Hl. destruct (decide (self = l)) as [<-|Hne].
      * rewrite lookup_insert_eq. eexists. split; [done|].
        assert (o0 = o) as -> by congruence. done.
      * rewrite lookup_insert_ne by done. eauto.
    + intros pl ps0 Hpl. destruct (decide (Order.products o = pl)) as [<-|Hne].
      * rewrite lookup_insert_eq. eexists. split; [done|].
        assert (ps0 = ps) as -> by congruence. by apply prefix_app_r.
      * rewrite lookup_insert_ne by done. eauto.
  - split_and!; try done; try lia; [apply keep_order_insert_fresh|eauto].
  - split_and!; try done; try lia;
      [apply keep_order_insert_fresh|apply keep_list_insert_fresh].
  - split_and!; try done; try lia; [eauto|eauto|by apply prefix_app_r].
  - split_and!; try done; try lia;
      [by apply prefix_app_r|apply keep_order_insert_fresh|apply keep_list_insert_fresh].
Qed.

Lemma prims_extends (w w' : World) : rtc prim w w' → extends w w'.
Proof.
  induction 1 as [|w w1 w' Hprim _ IH]; [apply extends_refl|].
  eapply extends_trans; [by apply prim_extends|done].
Qed.




(* ===================================================================== *)
(** * What every reachable world satisfies *)
(* ===================================================================== *)

Lemma stored_of_app (h : gmap loc Order.t) (os1 os2 : list loc) :
  stored_of h (os1 ++ os2) = stored_of h os1 ++ stored_of h os2.
Proof. apply omap_app. Qed.

Lemma stored_of_cons (h : gmap loc Order.t) (l : loc) (os : list loc) :
  stored_of h (l :: os) =
    match h !! l with
    | Some o => o :: stored_of h os
    | None => stored_of h os
    end.
Proof. done. Qed.

Lemma stored_of_insert_notin (h : gmap loc Order.t) (l0 : loc) (o : Order.t)
    (os : list loc) :
  l0 ∉ os → stored_of (<[l0 := o]> h) os = stored_of h os.
Proof.
  induction os as [|l os IH]; intros Hnotin; [done|].
  apply not_elem_of_cons in Hnotin as [Hne Hnotin].
  rewrite !stored_of_cons, lookup_insert_ne by done. by rewrite IH.
Qed.

Lemma stored_of_insert_same {B : Type} (f : Order.t → B) (h : gmap loc Order.t)
    (self : loc) (o o' : Order.t) (os : list loc) :
  h !! self = Some o → f o' = f o →
  map f (stored_of (<[self := o']> h) os) = map f (stored_of h os).
Proof.
  intros Ho Hf. induction os as [|l os IH]; [done|].
  rewrite !stored_of_cons. destruct (decide (self = l)) as [<-|Hne].
  - rewrite lookup_insert_eq, Ho. simpl. by rewrite Hf, IH.
  - rewrite lookup_insert_ne by done. destruct (h !! l); simpl; by rewrite IH.
Qed.

Lemma stored_of_elem (h : gmap loc Order.t) (os : list loc) (l : loc) (o : Order.t) :
  l ∈ os → h !! l = Some o → o ∈ stored_of h os.
Proof. intros Hl Ho. apply list_elem_of_omap. eauto. Qed.

Lemma stored_live (w : World) (o : Order.t) :
  o ∈ stored w → ∃ l, l ∈ orders w ∧ order_heap w !! l = Some o.
Proof. by intros ?%list_elem_of_omap. Qed.

Lemma World_ok_fresh_notin (w : World) :
  World_ok w → fresh (dom (order_heap w)) ∉ orders w.
Proof.
  intros [Hlive _] Hin.
  pose proof (proj1 (Forall_forall _ _) Hlive _ Hin) as Hsome.
  apply elem_of_dom in Hsome. by apply is_fresh in Hsome.
Qed.

Lemma World_ok_appended (w : World) (self : loc) (o : Order.t)
    (ps : list Product.t) (product : Product.t) :
  order_heap w !! self = Some o →
  list_heap w !! Order.products o = Some ps →
  World_ok w → World_ok (appended w self o ps product).
Proof.
  intros Ho Hps [Hlive Hlists]. split; simpl.
  - eapply Forall_impl; [exact Hlive|]. intros l [o0 Hl]. simpl.
    destruct (decide (self = l)) as [<-|Hne].
    + rewrite lookup_insert_eq. eauto.
    + rewrite lookup_insert_ne by done. eauto.
  - assert (∀ o0 : Order.t, is_Some (list_heap w !! Order.products o0) →
              is_Some (<[Order.products o := ps ++ [product]]> (list_heap w)
                         !! Order.products o0)) as Hkeep.
    { intros o0 [ps0 Hps0].
      destruct (decide (Order.products o = Order.products o0)) as [<-|Hne].
      - rewrite lookup_insert_eq. eauto.
      - rewrite lookup_insert_ne by done. eauto. }
    apply map_Forall_insert_2.
    + simpl. rewrite lookup_insert_eq. eauto.
    + intros l o0 Hl. simpl. apply Hkeep. by apply (Hlists l o0).
Qed.

Lemma World_ok_copied (w : World) (self : loc) (o : Order.t) :
  order_heap w !! self = Some o → World_ok w → World_ok (copied w o).
Proof.
  intros Ho [Hlive Hlists]. split; simpl.
  - eapply Forall_impl; [exact Hlive|]. intros l [o0 Hl]. simpl.
    destruct (decide (fresh (dom (order_heap w)) = l)) as [<-|Hne].
    + rewrite lookup_insert_eq. eauto.
    + rewrite lookup_insert_ne by done. eauto.
  - apply map_Forall_insert_2; [|done]. by apply (Hlists self o).
Qed.

Lemma World_ok_stored_new (w : World) (ps : list Product.t) :
  World_ok w → World_ok (stored_new w ps).
Proof.
  intros Hok. apply (World_ok_append (created w ps)).
  - by apply World_ok_created.
  - simpl. rewrite lookup_insert_eq. eauto.
Qed.

Lemma prim_World_ok (w w' : World) : prim w w' → World_ok w → World_ok w'.
Proof.
  intros Hprim Hok. destruct Hprim as
    [w self o ps product Ho Hps Hin | w self o Ho | w ps | w inputs n | w ps].
  - by apply World_ok_appended.
  - by eapply World_ok_copied.
  - by apply World_ok_created.
  - by apply World_ok_classified.
  - by apply World_ok_stored_new.
Qed.

Lemma stored_appended (w : World) (self : loc) (o : Order.t) (ps : list Product.t)
    (product : Product.t) :
  order_heap w !! self = Some o →
  map Order.id (stored (appended w self o ps product)) = map Order.id (stored w) ∧
  map Order.products (stored (appended w self o ps product))
    = map Order.products (stored w).
Proof.
  intros Ho. unfold stored. simpl.
  split; by apply (stored_of_insert_same _ _ self o).
Qed.

Lemma stored_copied (w : World) (o : Order.t) :
  World_ok w → stored (copied w o) = stored w.
Proof.
  intros Hok. unfold stored. simpl.
  by apply stored_of_insert_notin, World_ok_fresh_notin.
Qed.

Lemma stored_created (w : World) (ps : list Product.t) :
  World_ok w → stored (created w ps) = stored w.
Proof.
  intros Hok. unfold stored. simpl.
  by apply stored_of_insert_notin, World_ok_fresh_notin.
Qed.

Lemma stored_stored_new (w : World) (ps : list Product.t) :
  World_ok w → stored (stored_new w ps) = stored w ++ [new_order_obj w].
Proof.
  intros Hok. unfold stored. simpl. rewrite stored_of_app. f_equal.
  - by apply stored_of_insert_notin, World_ok_fresh_notin.
  - rewrite stored_of_cons, lookup_insert_eq. done.
Qed.

Lemma drawn_mono (src : nat → UUID) (pos pos' : nat) (ids : list UUID) :
  (pos ≤ pos')%nat →
  Forall (λ i, ∃ k, (k < pos)%nat ∧ i = src k) ids →
  Forall (λ i, ∃ k, (k < pos')%nat ∧ i = src k) ids.
Proof.
  intros Hle H. eapply Forall_impl; [exact H|].
  intros i (k & Hk & ->). exists k. split; [lia|done].
Qed.

Lemma times_mono (clk : nat → datetime) (pos pos' : nat) (h : gmap loc Order.t) :
  (pos ≤ pos')%nat →
  map_Forall (λ _ o, ∃ i j, (i ≤ j < pos)%nat ∧
                             Order.created_at o = clk i ∧
                             Order.updated_at o = clk j) h →
  map_Forall (λ _ o, ∃ i j, (i ≤ j < pos')%nat ∧
                             Order.created_at o = clk i ∧
                             Order.updated_at o = clk j) h.
Proof.
  intros Hle H. eapply map_Forall_impl; [exact H|].
  intros l o (i & j & Hij & Hc & Hu). exists i, j. split; [lia|done].
Qed.

Lemma stored_lists_live (w : World) :
  World_ok w →
  Forall (λ pl, pl ∈ dom (list_heap w)) (map Order.products (stored w)).
Proof.
  intros [_ Hlists]. apply Forall_forall. intros pl Hpl.
  apply list_elem_of_fmap in Hpl as (o & -> & Ho).
  apply stored_live in Ho as (l & _ & Hl).
  apply elem_of_dom. by apply (Hlists l o).
Qed.

Lemma prim_store_inv (w w' : World) : prim w w' → store_inv w → store_inv w'.
Proof.
  intros Hprim [Hok Hnd Hdrawn Hids Hpls Htimes Hsrc].
  pose proof (prim_World_ok w w' Hprim Hok) as Hok'.
  destruct Hprim as
    [w self o ps product Ho Hps Hin | w self o Ho | w ps | w inputs n | w ps].
  - destruct (stored_appended w self o ps product Ho) as [Eid Epl].
    split; try done.
    + by rewrite Eid.
    + by rewrite Eid.
    + by rewrite Epl.
    + simpl. apply map_Forall_insert_2.
      * destruct (Htimes self o Ho) as (i & j & Hij & Hc & Hu). simpl in *.
        exists i, (clock_pos w). simpl. split; [lia|done].
      * by apply (times_mono _ (clock_pos w)); [lia|].
  - split; try done.
    + by rewrite stored_copied.
    + by rewrite stored_copied.
    + by rewrite stored_copied.
    + simpl. apply map_Forall_insert_2; [by apply (Htimes self o)|done].
  - split; try done.
    + rewrite stored_created by done. simpl.
      by apply (drawn_mono _ (uuid_pos w)); [lia|].
    + by rewrite stored_created.
    + by rewrite stored_created.
    + simpl. apply map_Forall_insert_2.
      * exists (clock_pos w), (S (clock_pos w)). simpl. split; [lia|done].
      * by apply (times_mono _ (clock_pos w)); [lia|].
  - split; try done.
    simpl. by apply (drawn_mono _ (uuid_pos w)); [lia|].
  - assert (Order.id (new_order_obj w) ∉ map Order.id (stored w)) as Hnewid.
    { intros Hin. apply (proj1 (Forall_forall _ _) Hdrawn) in Hin as (k & Hk & Heq).
      simpl in Heq. apply Hsrc in Heq. lia. }
    assert (Order.products (new_order_obj w) ∉ map Order.products (stored w))
      as Hnewpl.
    { intros Hin.
      apply (proj1 (Forall_forall _ _) (stored_lists_live w Hok)) in Hin.
      simpl in Hin. by apply is_fresh in Hin. }
    split; try done.
    + simpl. apply NoDup_app. split; [done|]. split; [|apply NoDup_singleton].
      intros l Hl ->%list_elem_of_singleton. by apply (World_ok_fresh_notin w).
    + rewrite stored_stored_new by done. simpl. rewrite map_app.
      apply Forall_app. split.
      * by apply (drawn_mono _ (uuid_pos w)); [lia|].
      * apply Forall_singleton. exists (uuid_pos w). split; [lia|done].
    + rewrite stored_stored_new by done. rewrite map_app.
      apply NoDup_app. split; [done|]. split; [|apply NoDup_singleton].
      intros i Hi ->%list_elem_of_singleton. done.
    + rewrite stored_stored_new by done. rewrite map_app.
      apply NoDup_app. split; [done|]. split; [|apply NoDup_singleton].
      intros i Hi ->%list_elem_of_singleton. done.
    + simpl. apply map_Forall_insert_2.
      * exists (clock_pos w), (S (clock_pos w)). simpl. split; [lia|done].
      * by apply (times_mono _ (clock_pos w)); [lia|].
Qed.

Lemma prims_store_inv (w w' : World) : rtc prim w w' → store_inv w → store_inv w'.
Proof.
  induction 1 as [|w w1 w' Hprim _ IH]; [done|].
  intros Hinv. by apply IH, (prim_store_inv w).
Qed.

Lemma initial_store_inv (w : World) : initial w → store_inv w.
Proof.
  intros (Hoh & Hlh & Hos & Hinj). split; try done.
  - split.
    + rewrite Hos. constructor.
    + rewrite Hoh. apply map_Forall_empty.
  - rewrite Hos. constructor.
  - unfold stored. rewrite Hos. constructor.
  - unfold stored. rewrite Hos. constructor.
  - unfold stored. rewrite Hos. constructor.
  - rewrite Hoh. apply map_Forall_empty.
Qed.

Lemma reachable_store_inv (w : World) : reachable w → store_inv w.
Proof.
  induction 1 as [w Hinit|w w' _ IH Hstep].
  - by apply initial_store_inv.
  - apply (prims_store_inv w w'); [by apply step_prims|done].
Qed.

Lemma stored_proj_inj {B : Type} (f : Order.t → B) (h : gmap loc Order.t)
    (os : list loc) (l l' : loc) (o o' : Order.t) :
  NoDup (map f (stored_of h os)) →
  l ∈ os → l' ∈ os → h !! l = Some o → h !! l' = Some o' → f o = f o' →
  l = l'.
Proof.
  intros Hnd Hl Hl' Ho Ho' Hf. induction os as [|x os IH]; [by apply elem_of_nil in Hl|].
  rewrite stored_of_cons in Hnd.
  apply elem_of_cons in Hl as [->|Hl]; apply elem_of_cons in Hl' as [->|Hl']; [done|..].
  - rewrite Ho in Hnd. simpl in Hnd. apply NoDup_cons in Hnd as [Hnotin _].
    exfalso. apply Hnotin. rewrite Hf. apply list_elem_of_fmap.
    exists o'. split; [done|]. by apply (stored_of_elem h os l').
  - rewrite Ho' in Hnd. simpl in Hnd. apply NoDup_cons in Hnd as [Hnotin _].
    exfalso. apply Hnotin. rewrite <- Hf. apply list_elem_of_fmap.
    exists o. split; [done|]. by apply (stored_of_elem h os l).
  - apply IH; [|done..]. destruct (h !! x); [|done].
    simpl in Hnd. by apply NoDup_cons in Hnd as [_ ?].
Qed.

Lemma reachable_first_match (w : World) (l : loc) (o : Order.t) :
  reachable w → l ∈ orders w → order_heap w !! l = Some o →
  first_match w (Order.id o) l.
Proof.
  intros [Hok Hnd _ Hids _ _ _]%reachable_store_inv Hin Ho.
  destruct (list_elem_of_split _ _ Hin) as (pre & post & Hos).
  exists pre, post, o. split; [done|]. split; [done|]. split; [done|].
  intros l' o' Hl' Ho' Heq.
  assert (l' = l) as ->.
  { apply (stored_proj_inj Order.id (order_heap w) (orders w) l' l o' o); try done.
    rewrite Hos. apply elem_of_app. by left. }
  rewrite Hos in Hnd. apply NoDup_app in Hnd as (_ & Hdisj & _).
  apply (Hdisj l Hl'). apply list_elem_of_here.
Qed.

(** X2. In every world the service can reach, the stored orders have
    pairwise different identifiers. Hence, for a stored order,
    GET /order/{its id} returns that very order and GET /bill/{its id}
    returns the sum of its products' prices, both leaving the world
    unchanged. *)
Theorem lookup_returns_stored (w : World) (l : loc) (v : OrderValue) :
  reachable w → l ∈ orders w → snapshot w l = Some v →
  (∀ l' v', l' ∈ orders w → snapshot w l' = Some v' → v_id v' = v_id v → l' = l) ∧
  get_order_by_id (v_id v) w = Returned (Some l) w ∧
  get_order (v_id v) w = Returned (BOrder l) w ∧
  get_bill (v_id v) w =
    Returned (BNumber (py_sum (map (λ product, PyFloat (Product.price product))
                                   (v_products v)))) w.
Proof.
  intros Hreach Hin Hv.
  pose proof (reachable_store_inv w Hreach) as [Hok Hnd _ Hids _ _ _].
  pose proof (snapshot_inv _ _ _ Hv) as (o & Ho & Hps & Hid & _).
  assert (get_order_by_id (v_id v) w = Returned (Some l) w) as Hget.
  { rewrite Hid. apply get_order_by_id_first; [done|].
    by apply reachable_first_match. }
  split_and!.
  - intros l' v' Hin' (o' & Ho' & _ & Hid' & _)%snapshot_inv Heq.
    apply (stored_proj_inj Order.id (order_heap w) (orders w) l' l o' o); try done.
    congruence.
  - done.
  - unfold get_order, bind. by rewrite Hget.
  - unfold get_bill, bind. rewrite Hget. by rewrite (bill_run w l v Hv).
Qed.

Lemma reachable_world_made : reachable world_made.
Proof.
  eapply reachable_step; [apply reachable_initial, initial_world0|].
  apply (step_make_order world0 unit unit sample_predict
           [file_good; file_good] tt tt). vm_compute. reflexivity.
Qed.

Lemma reachable_world_two : reachable world_two.
Proof.
  eapply reachable_step; [apply reachable_world_made|].
  apply (step_make_order world_made unit unit sample_predict [file_good] tt tt).
  vm_compute. reflexivity.
Qed.

Lemma orders_world_two : orders world_two = [0%nat; 1%nat].
Proof. vm_compute. reflexivity. Qed.

Lemma lookup_returns_stored_witness :
  get_order 4 world_two = Returned (BOrder 1%nat) world_two ∧
  get_bill 4 world_two = Returned (BNumber (PyFloat (float_of_int 100))) world_two.
Proof.
  destruct (lookup_returns_stored world_two 1%nat
              (mkOrderValue 4 (inference_products N.of_nat 3 [["even"]]) 2 3))
    as (_ & _ & Hget & Hbill).
  - exact reachable_world_two.
  - rewrite orders_world_two. apply list_elem_of_further, list_elem_of_here.
  - vm_compute. reflexivity.
  - split; [exact Hget|]. etrans; [exact Hbill|]. vm_compute. reflexivity.
Defined.

(** X3. In every world the service can reach, the two timestamps of an
    order are readings of the clock and [created_at] is not the later
    reading; so, whenever the clock does not run backwards,
    [created_at <= updated_at]. *)
Theorem timestamps_ordered (w : World) (l : loc) (v : OrderValue) :
  reachable w → snapshot w l = Some v →
  (∃ i j, (i ≤ j < clock_pos w)%nat ∧
          v_created_at v = clock w i ∧ v_updated_at v = clock w j) ∧
  ((∀ i j, (i ≤ j)%nat → clock w i ≤ clock w j) →
   v_created_at v ≤ v_updated_at v).
Proof.
  intros [_ _ _ _ _ Htimes _]%reachable_store_inv
         (o & Ho & _ & _ & Hc & Hu)%snapshot_inv.
  destruct (Htimes l o Ho) as (i & j & Hij & Hci & Huj). simpl in *.
  split.
  - exists i, j. split; [done|]. split; congruence.
  - intros Hmono. rewrite Hc, Hu, Hci, Huj. apply Hmono. lia.
Qed.

Lemma clock_world_served : clock world_served = Z.of_nat.
Proof. vm_compute. reflexivity. Qed.

Lemma timestamps_ordered_witness :
  ∃ v, snapshot world_served 0%nat = Some v ∧ v_created_at v ≤ v_updated_at v.
Proof.
  exists (mkOrderValue 2
            (inference_products N.of_nat 0 [["even"]; ["even"]]
               ++ [product_a; product_b]) 0 3).
  split; [vm_compute; reflexivity|].
  apply (timestamps_ordered world_served 0%nat).
  - exact reachable_world_served.
  - vm_compute. reflexivity.
  - intros i j Hij. rewrite clock_world_served. lia.
Defined.

(* ===================================================================== *)
(** * An update touches one order *)
(* ===================================================================== *)

Lemma next_order_some (os : list loc) (order_id : UUID) (w w0 : World) (l : loc) :
  next_order os order_id w = Returned (Some l) w0 →
  l ∈ os ∧ ∃ o, order_heap w !! l = Some o ∧ Order.id o = order_id.
Proof.
  induction os as [|x os IH]; simpl; [done|]. run_monad.
  destruct (order_heap w !! x) as [o|] eqn:Hx; [|done]. simpl.
  case_bool_decide as Hid.
  - intros [= <- <-]. split; [apply list_elem_of_here|eauto].
  - intros [Hin Hrest]%IH. split; [by apply list_elem_of_further|done].
Qed.

Lemma add_product_frame (self : loc) (product : Product.t) (w w' : World)
    (o : Order.t) :
  order_heap w !! self = Some o →
  final_world (add_product self product w) = Some w' →
  (∀ l, l ≠ self → order_heap w' !! l = order_heap w !! l) ∧
  (∀ pl, pl ≠ Order.products o → list_heap w' !! pl = list_heap w !! pl) ∧
  orders w' = orders w ∧
  (∃ o', order_heap w' !! self = Some o' ∧ Order.products o' = Order.products o).
Proof.
  intros Ho. unfold add_product. run_monad. rewrite Ho. simpl.
  destruct (list_heap w !! Order.products o) as [ps|] eqn:Hps; [|done]. simpl.
  case_bool_decide as Hin; simpl.
  - intros [= <-]. eauto 10.
  - rewrite Hps. simpl. rewrite Ho. simpl. intros [= <-]. simpl. split_and!.
    + intros l Hl. by rewrite lookup_insert_ne.
    + intros pl Hpl. by rewrite lookup_insert_ne.
    + done.
    + eexists. split; [apply lookup_insert_eq|done].
Qed.

Lemma update_loop_frame (self : loc) (products : list Product.t) :
  ∀ (updated : loc) (w w' : World) (o : Order.t),
    order_heap w !! self = Some o →
    final_world (update_loop self products updated w) = Some w' →
    (∀ l, l ≠ self → order_heap w' !! l = order_heap w !! l) ∧
    (∀ pl, pl ≠ Order.products o → list_heap w' !! pl = list_heap w !! pl) ∧
    orders w' = orders w.
Proof.
  induction products as [|p rest IH]; intros updated w w' o Ho; simpl.
  - by intros [= <-].
  - unfold bind.
    destruct (add_product_result self p w) as [[w1 Hadd]|Hadd]; rewrite Hadd; [|done].
    intros Hrest.
    destruct (add_product_frame self p w w1 o Ho)
      as (Hh1 & Hl1 & Hos1 & o1 & Ho1 & Hpl1).
    { by rewrite Hadd. }
    destruct (IH self w1 w' o1 Ho1 Hrest) as (Hh2 & Hl2 & Hos2). split_and!.
    + intros l Hl. by rewrite Hh2, Hh1.
    + intros pl Hpl. rewrite Hl2, Hl1; [done..|congruence].
    + congruence.
Qed.

(** X4. In every world the service can reach, PATCH /order/{order_id}
    leaves every stored order with another identifier exactly as it was:
    its products, [updated_at] and the rest of its value. *)
Theorem update_leaves_others (w w' : World) (order_id : UUID)
    (order_update : OrderUpdate.t) (l : loc) (v : OrderValue) :
  reachable w → l ∈ orders w → snapshot w l = Some v → v_id v ≠ order_id →
  final_world (update_order order_id order_update w) = Some w' →
  orders w' = orders w ∧ snapshot w' l = Some v.
Proof.
  intros Hreach Hin Hv Hne Hfin%update_order_final.
  pose proof (reachable_store_inv w Hreach) as [Hok Hnd _ _ Hpls _ _].
  pose proof (snapshot_inv _ _ _ Hv) as (o & Ho & Hps & Hid & Hc & Hu).
  revert Hfin. unfold update_order_by_id, bind.
  destruct (get_order_by_id_pure order_id w) as [[r Hr]|Hr]; rewrite Hr; [|done].
  destruct r as [existing|]; simpl; [|by intros [= <-]].
  apply next_order_some in Hr as (Hex & o0 & Ho0 & Hid0).
  unfold Order_copy, bind, get_obj. rewrite Ho0. simpl. fold (copied w o0).
  assert (existing ≠ l) as Hel.
  { intros ->. rewrite Ho in Ho0. injection Ho0 as <-.
    apply Hne. etrans; [exact Hid|exact Hid0]. }
  assert (fresh (dom (order_heap w)) ≠ l) as Hfl.
  { intros Heq. pose proof (fresh_order_None w) as Hnone.
    rewrite Heq in Hnone. congruence. }
  assert (fresh (dom (order_heap w)) ≠ existing) as Hfe.
  { intros Heq. pose proof (fresh_order_None w) as Hnone.
    rewrite Heq in Hnone. congruence. }
  assert (Order.products o ≠ Order.products o0) as Hpl.
  { intros Heq. apply Hel.
    by apply (stored_proj_inj Order.products (order_heap w) (orders w)
                existing l o0 o). }
  assert (order_heap (copied w o0) !! existing = Some o0) as Ho0'.
  { simpl. by rewrite lookup_insert_ne. }
  assert (∀ w2, final_world (update_loop existing (OrderUpdate.products order_update)
                               (fresh (dom (order_heap w))) (copied w o0)) = Some w2 →
                orders w2 = orders w ∧ snapshot w2 l = Some v) as Hkey.
  { intros w2 Hloop.
    destruct (update_loop_frame _ _ _ _ _ o0 Ho0' Hloop) as (Hh & Hl & Hos).
    split; [done|]. unfold snapshot. rewrite Hh by done. simpl.
    rewrite lookup_insert_ne by done. rewrite Ho, Hl by done. simpl.
    rewrite Hps. destruct v; simpl in *; congruence. }
  destruct (update_loop existing (OrderUpdate.products order_update)
              (fresh (dom (order_heap w))) (copied w o0)) as [r w2|e w2|];
    simpl; [| |done]; intros [= <-]; by apply Hkey.
Qed.

Lemma update_leaves_others_witness :
  snapshot (world_after (update_order 2 (OrderUpdate.mk [product_a; product_b]))
                        world_two) 1%nat
  = snapshot world_two 1%nat.
Proof.
  destruct (update_leaves_others world_two
              (world_after (update_order 2 (OrderUpdate.mk [product_a; product_b]))
                           world_two)
              2 (OrderUpdate.mk [product_a; product_b]) 1%nat
              (mkOrderValue 4 (inference_products N.of_nat 3 [["even"]]) 2 3))
    as [_ Hsnap].
  - exact reachable_world_two.
  - rewrite orders_world_two. apply list_elem_of_further, list_elem_of_here.
  - vm_compute. reflexivity.
  - discriminate.
  - vm_compute. reflexivity.
  - rewrite Hsnap. vm_compute. reflexivity.
Defined.

(* ===================================================================== *)
(** * What an update does to the order it finds *)
(* ===================================================================== *)

Lemma prims_World_ok (w w' : World) : rtc prim w w' → World_ok w → World_ok w'.
Proof.
  induction 1 as [|w w1 w' Hprim _ IH]; [done|].
  intros Hok. by apply IH, (prim_World_ok w).
Qed.

Lemma first_match_extends (w w' : World) (order_id : UUID) (l : loc) :
  World_ok w → extends w w' → orders w' = orders w →
  first_match w order_id l → first_match w' order_id l.
Proof.
  intros [Hlive _] (_ & Hh & _) Hos (pre & post & o & Hsplit & Ho & Hid & Hne).
  destruct (Hh l o Ho) as (o' & Ho' & Hid' & _).
  exists pre, post, o'. split; [congruence|]. split; [done|]. split; [congruence|].
  intros l' o1 Hl' Ho1.
  assert (l' ∈ orders w) as Hin by (rewrite Hsplit; apply elem_of_app; by left).
  destruct (proj1 (Forall_forall _ _) Hlive l' Hin) as [o0 Ho0].
  destruct (Hh l' o0 Ho0) as (o2 & Ho2 & Hid2 & _).
  assert (o1 = o2) as -> by congruence.
  rewrite Hid2. by apply (Hne l' o0).
Qed.

(** The run of [update_order] on the order it finds. *)
Lemma update_order_run (w : World) (order_id : UUID) (order_update : OrderUpdate.t)
    (l : loc) (v : OrderValue) :
  World_ok w → first_match w order_id l → snapshot w l = Some v →
  ∃ updated w' v',
    update_order order_id order_update w = Returned (BOrder updated) w' ∧
    World_ok w' ∧ first_match w' order_id l ∧ orders w' = orders w ∧
    snapshot w' l = Some v' ∧ snapshot w' updated = Some v' ∧
    v_products v' =
      fold_left add_product_pure (OrderUpdate.products order_update) (v_products v).
Proof.
  intros Hok Hfirst Hv.
  pose proof (get_order_by_id_first w _ l Hok Hfirst) as Hget.
  pose proof (snapshot_inv _ _ _ Hv) as (o & Ho & Hps & Hid & Hc & Hu).
  pose proof (Order_copy_run w l o Ho) as Hcopy. fold (copied w o) in Hcopy.
  set (c := fresh (dom (order_heap w))) in *.
  assert (c ≠ l) as Hne.
  { intros Heq. pose proof (fresh_order_None w) as Hfresh. fold c in Hfresh.
    rewrite Heq in Hfresh. congruence. }
  assert (snapshot (copied w o) l = Some v) as Hv1.
  { unfold snapshot, copied. simpl. fold c. rewrite lookup_insert_ne by done.
    rewrite Ho, Hps. destruct v; simpl in *; congruence. }
  assert (snapshot (copied w o) c = Some v) as Hv2.
  { unfold snapshot, copied. simpl. fold c. rewrite lookup_insert_eq.
    rewrite Hps. destruct v; simpl in *; congruence. }
  assert (∃ updated w' v',
            update_order_by_id order_id order_update w = Returned (Some updated) w' ∧
            orders w' = orders w ∧
            snapshot w' l = Some v' ∧ snapshot w' updated = Some v' ∧
            v_products v' =
              fold_left add_product_pure (OrderUpdate.products order_update)
                        (v_products v)) as (updated & w' & v' & Hrun & Hos & Hl & Hupd & Hprods).
  { unfold update_order_by_id, bind. rewrite Hget, Hcopy.
    destruct order_update as [products]. cbn [OrderUpdate.products].
    destruct products as [|p rest].
    - exists c, (copied w o), v. done.
    - destruct (add_product_snapshot (copied w o) l p v Hv1)
        as (w1 & Hadd & Hos1 & v1 & Hsnap1 & Hps1 & _).
      destruct (update_loop_same l rest w1 v1 Hsnap1)
        as (w' & v' & Hloop & _ & Hos' & Hv' & Hps' & _).
      exists l, w', v'. cbn [update_loop]. unfold bind. rewrite Hadd, Hloop.
      split_and!; try done.
      + by rewrite Hos', Hos1.
      + simpl. by rewrite Hps', Hps1. }
  assert (rtc prim w w') as Hprims.
  { apply (update_order_by_id_prims order_id order_update). by rewrite Hrun. }
  exists updated, w', v'. split_and!; try done.
  - unfold update_order, bind. by rewrite Hrun.
  - by apply (prims_World_ok w).
  - apply (first_match_extends w); [done| |done..]. by apply prims_extends.
Qed.

Lemma update_loop_noop (self : loc) (products : list Product.t) (w : World)
    (v : OrderValue) :
  snapshot w self = Some v →
  (∀ p, p ∈ products → Product.id p ∈ product_ids (v_products v)) →
  update_loop self products self w = Returned self w.
Proof.
  intros Hv. pose proof (snapshot_inv _ _ _ Hv) as (o & Ho & Hps & _).
  induction products as [|p rest IH]; intros Hall; [done|].
  simpl. unfold bind.
  rewrite (add_product_present w self p o (v_products v) Ho Hps).
  - apply IH. intros q Hq. apply Hall. by apply list_elem_of_further.
  - apply Hall. apply list_elem_of_here.
Qed.

Lemma copied_keeps_snapshot (w : World) (o : Order.t) (l0 : loc) (v0 : OrderValue) :
  snapshot w l0 = Some v0 → snapshot (copied w o) l0 = Some v0.
Proof.
  intros (o0 & Ho0 & Hps0 & Hid0 & Hc0 & Hu0)%snapshot_inv.
  unfold snapshot, copied. simpl. rewrite lookup_insert_ne.
  - rewrite Ho0, Hps0. destruct v0; simpl in *; congruence.
  - intros Heq. pose proof (fresh_order_None w) as Hfresh.
    rewrite Heq in Hfresh. congruence.
Qed.

(** With nothing new to add, [update_order] only allocates the copy. *)
Lemma update_order_noop (w : World) (order_id : UUID)
    (order_update : OrderUpdate.t) (l : loc) (o : Order.t) (v : OrderValue) :
  World_ok w → first_match w order_id l →
  order_heap w !! l = Some o → snapshot w l = Some v →
  (∀ p, p ∈ OrderUpdate.products order_update →
        Product.id p ∈ product_ids (v_products v)) →
  ∃ updated,
    update_order order_id order_update w = Returned (BOrder updated) (copied w o) ∧
    snapshot (copied w o) updated = Some v.
Proof.
  intros Hok Hfirst Ho Hv Hall.
  pose proof (get_order_by_id_first w _ l Hok Hfirst) as Hget.
  pose proof (snapshot_inv _ _ _ Hv) as (o' & Ho' & Hps & Hid & Hc & Hu).
  assert (o' = o) as -> by congruence.
  pose proof (Order_copy_run w l o Ho) as Hcopy. fold (copied w o) in Hcopy.
  pose proof (copied_keeps_snapshot w o l v Hv) as Hv1.
  pose proof (snapshot_inv _ _ _ Hv1) as (o1 & Ho1 & Hps1 & _).
  unfold update_order, update_order_by_id, bind. rewrite Hget, Hcopy.
  destruct order_update as [products]. cbn [OrderUpdate.products] in *.
  destruct products as [|p rest].
  - exists (fresh (dom (order_heap w))). split; [done|].
    unfold snapshot, copied. simpl. rewrite lookup_insert_eq.
    rewrite Hps. destruct v; simpl in *; congruence.
  - exists l. cbn [update_loop]. unfold bind.
    rewrite (add_product_present (copied w o) l p o1 (v_products v) Ho1 Hps1).
    + rewrite (update_loop_noop l rest (copied w o) v Hv1); [done|].
      intros q Hq. apply Hall. by apply list_elem_of_further.
    + apply Hall. apply list_elem_of_here.
Qed.

(** X5. A PATCH that supplies nothing new (no product at all, or only
    products whose ids the order already holds) changes no order: the
    found order keeps its products and its [updated_at], the clock is not
    read, and every other order keeps its value. The order handed back
    has the value of the stored one. *)
Theorem update_nothing_new (w : World) (order_id : UUID)
    (order_update : OrderUpdate.t) (l : loc) (v : OrderValue) :
  World_ok w → first_match w order_id l → snapshot w l = Some v →
  (∀ p, p ∈ OrderUpdate.products order_update →
        Product.id p ∈ product_ids (v_products v)) →
  ∃ updated w',
    update_order order_id order_update w = Returned (BOrder updated) w' ∧
    snapshot w' updated = Some v ∧
    orders w' = orders w ∧ list_heap w' = list_heap w ∧
    clock_pos w' = clock_pos w ∧
    ∀ l0 v0, snapshot w l0 = Some v0 → snapshot w' l0 = Some v0.
Proof.
  intros Hok Hfirst Hv Hall.
  pose proof (snapshot_inv _ _ _ Hv) as (o & Ho & _).
  destruct (update_order_noop w order_id order_update l o v Hok Hfirst Ho Hv Hall)
    as (updated & Hrun & Hupd).
  exists updated, (copied w o). split_and!; try done.
  intros l0 v0. apply copied_keeps_snapshot.
Qed.

Lemma first_match_world_stored : first_match world_stored 0 0%nat.
Proof.
  exists [], [], (new_order_obj world0).
  split; [vm_compute; reflexivity|]. split; [vm_compute; reflexivity|].
  split; [reflexivity|]. intros l' o' Hl'. by apply elem_of_nil in Hl'.
Qed.

Lemma update_nothing_new_witness :
  ∃ updated w',
    update_order 0 (OrderUpdate.mk [product_b; product_a]) world_stored
      = Returned (BOrder updated) w' ∧
    snapshot w' updated = Some (mkOrderValue 0 [product_a; product_b] 0 1) ∧
    orders w' = orders world_stored ∧ list_heap w' = list_heap world_stored ∧
    clock_pos w' = clock_pos world_stored ∧
    ∀ l0 v0, snapshot world_stored l0 = Some v0 → snapshot w' l0 = Some v0.
Proof.
  apply (update_nothing_new world_stored 0 (OrderUpdate.mk [product_b; product_a])
           0%nat (mkOrderValue 0 [product_a; product_b] 0 1)).
  - exact World_ok_world_stored.
  - exact first_match_world_stored.
  - vm_compute. reflexivity.
  - intros p Hp. cbn [OrderUpdate.products] in Hp.
    apply elem_of_cons in Hp as [->|Hp]; [|apply elem_of_cons in Hp as [->|Hp]].
    + apply list_elem_of_further, list_elem_of_here.
    + apply list_elem_of_here.
    + by apply elem_of_nil in Hp.
Defined.

Lemma add_products_contains (products : list Product.t) :
  ∀ (base : list Product.t),
    (∀ p, p ∈ base → p ∈ fold_left add_product_pure products base) ∧
    (∀ p, p ∈ products →
          Product.id p ∈ product_ids (fold_left add_product_pure products base)).
Proof.
  induction products as [|q rest IH]; intros base; simpl.
  - split; [done|]. by intros p ?%elem_of_nil.
  - destruct (IH (add_product_pure base q)) as [Hbase Hrest].
    assert (∀ p, p ∈ base → p ∈ add_product_pure base q) as Hstep.
    { intros p Hp. unfold add_product_pure. case_bool_decide; [done|].
      apply elem_of_app. by left. }
    split; [by auto|].
    intros p [->|Hp]%elem_of_cons; [|by apply Hrest].
    assert (∃ q', q' ∈ add_product_pure base q ∧ Product.id q' = Product.id q)
      as (q' & Hq' & Hid).
    { unfold add_product_pure. case_bool_decide as Hin.
      - apply list_elem_of_fmap in Hin as (q' & Hid & Hq'). eauto.
      - exists q. split; [|done]. apply elem_of_app. right. apply list_elem_of_here. }
    rewrite <- Hid. apply list_elem_of_fmap. exists q'. split; [done|]. by apply Hbase.
Qed.

(** X6. PATCH is idempotent on the order it finds: sending the same
    update a second time changes neither the order's products nor its
    [updated_at], reads no clock and leaves [orders] as it is. *)
Theorem update_order_idempotent (w : World) (order_id : UUID)
    (order_update : OrderUpdate.t) (l : loc) :
  World_ok w → first_match w order_id l →
  ∃ r1 w1 r2 w2 v1,
    update_order order_id order_update w = Returned (BOrder r1) w1 ∧
    update_order order_id order_update w1 = Returned (BOrder r2) w2 ∧
    snapshot w1 l = Some v1 ∧ snapshot w2 l = Some v1 ∧ snapshot w2 r2 = Some v1 ∧
    orders w2 = orders w1 ∧ clock_pos w2 = clock_pos w1.
Proof.
  intros Hok Hfirst.
  pose proof Hfirst as (pre & post & o & _ & Ho & _).
  destruct (World_ok_snapshot w l o Hok Ho) as [v Hv].
  destruct (update_order_run w order_id order_update l v Hok Hfirst Hv)
    as (r1 & w1 & v1 & Hrun1 & Hok1 & Hfirst1 & Hos1 & Hv1 & _ & Hps1).
  pose proof (snapshot_inv _ _ _ Hv1) as (o1 & Ho1 & _).
  destruct (update_order_noop w1 order_id order_update l o1 v1 Hok1 Hfirst1 Ho1 Hv1)
    as (r2 & Hrun2 & Hv2).
  { intros p Hp. rewrite Hps1. by apply add_products_contains. }
  exists r1, w1, r2, (copied w1 o1), v1. split_and!; try done.
  by apply copied_keeps_snapshot.
Qed.

Lemma update_order_idempotent_witness :
  ∃ r1 w1 r2 w2 v1,
    update_order 0 (OrderUpdate.mk [product_c; product_a]) world_stored
      = Returned (BOrder r1) w1 ∧
    update_order 0 (OrderUpdate.mk [product_c; product_a]) w1
      = Returned (BOrder r2) w2 ∧
    snapshot w1 0%nat = Some v1 ∧ snapshot w2 0%nat = Some v1 ∧
    snapshot w2 r2 = Some v1 ∧
    orders w2 = orders w1 ∧ clock_pos w2 = clock_pos w1.
Proof.
  apply (update_order_idempotent world_stored 0
           (OrderUpdate.mk [product_c; product_a]) 0%nat).
  - exact World_ok_world_stored.
  - exact first_match_world_stored.
Defined.

Lemma add_products_shape (products : list Product.t) :
  ∀ (base : list Product.t),
    ∃ added,
      fold_left add_product_pure products base = base ++ added ∧
      added `sublist_of` products ∧
      NoDup (product_ids added) ∧
      ∀ p, p ∈ added → Product.id p ∉ product_ids base.
Proof.
  induction products as [|q rest IH]; intros base; simpl.
  - exists []. rewrite app_nil_r. split_and!; [done|done|constructor|].
    by intros p ?%elem_of_nil.
  - unfold add_product_pure at 2. case_bool_decide as Hin.
    + destruct (IH base) as (added & Heq & Hsub & Hnd & Hnew).
      exists added. split_and!; [done|by apply sublist_cons|done|done].
    + destruct (IH (base ++ [q])) as (added & Heq & Hsub & Hnd & Hnew).
      assert (∀ p, p ∈ added → (Product.id p ∉ product_ids base) ∧
                               (Product.id p ≠ Product.id q)) as Hnew'.
      { intros p Hp. specialize (Hnew p Hp). unfold product_ids in Hnew.
        rewrite map_app in Hnew. apply not_elem_of_app in Hnew as [Hb Hq].
        split; [done|]. intros Heq'. apply Hq. simpl. rewrite Heq'.
        apply list_elem_of_here. }
      exists (q :: added). split_and!.
      * by rewrite Heq, <- app_assoc.
      * by apply sublist_skip.
      * simpl. apply NoDup_cons. split; [|done].
        intros (p & Hid & Hp)%list_elem_of_fmap.
        destruct (Hnew' p Hp) as [_ Hne]. congruence.
      * intros p [->|Hp]%elem_of_cons; [done|]. by apply Hnew'.
Qed.

(** X7. What a PATCH adds to the order it finds: the earlier products
    stay in front, followed by supplied products in the order they were
    supplied, namely one for each supplied id the order did not hold.
    Afterwards every supplied id is present, and GET /bill returns the
    earlier bill with the prices of the added products added to it, one
    after the other. *)
Theorem update_adds_new (w : World) (order_id : UUID)
    (order_update : OrderUpdate.t) (l : loc) (v : OrderValue) :
  World_ok w → first_match w order_id l → snapshot w l = Some v →
  ∃ added updated w' v' b,
    update_order order_id order_update w = Returned (BOrder updated) w' ∧
    snapshot w' l = Some v' ∧
    v_products v' = v_products v ++ added ∧
    added `sublist_of` OrderUpdate.products order_update ∧
    NoDup (product_ids added) ∧
    (∀ p, p ∈ added → Product.id p ∉ product_ids (v_products v)) ∧
    (∀ p, p ∈ OrderUpdate.products order_update →
          Product.id p ∈ product_ids (v_products v')) ∧
    get_bill order_id w = Returned (BNumber b) w ∧
    get_bill order_id w' =
      Returned (BNumber (fold_left py_add
                           (map (λ product, PyFloat (Product.price product)) added)
                           b)) w'.
Proof.
  intros Hok Hfirst Hv.
  destruct (update_order_run w order_id order_update l v Hok Hfirst Hv)
    as (updated & w' & v' & Hrun & Hok' & Hfirst' & Hos & Hv' & _ & Hps).
  destruct (add_products_shape (OrderUpdate.products order_update) (v_products v))
    as (added & Heq & Hsub & Hnd & Hnew).
  exists added, updated, w', v'. eexists. split_and!; try done.
  - by rewrite Hps.
  - intros p Hp. rewrite Hps. by apply add_products_contains.
  - unfold get_bill, bind.
    rewrite (get_order_by_id_first w _ l Hok Hfirst), (bill_run w l v Hv). done.
  - unfold get_bill, bind.
    rewrite (get_order_by_id_first w' _ l Hok' Hfirst'), (bill_run w' l v' Hv').
    rewrite Hps, Heq, map_app. unfold py_sum. by rewrite fold_left_app.
Qed.

Lemma update_adds_new_witness :
  ∃ added updated w' v' b,
    update_order 0 (OrderUpdate.mk [product_c; product_a; product_c]) world_stored
      = Returned (BOrder updated) w' ∧
    snapshot w' 0%nat = Some v' ∧
    v_products v' = [product_a; product_b] ++ added ∧
    added `sublist_of` [product_c; product_a; product_c] ∧
    NoDup (product_ids added) ∧
    (∀ p, p ∈ added → Product.id p ∉ product_ids [product_a; product_b]) ∧
    (∀ p, p ∈ [product_c; product_a; product_c] →
          Product.id p ∈ product_ids (v_products v')) ∧
    get_bill 0 world_stored = Returned (BNumber b) world_stored ∧
    get_bill 0 w' =
      Returned (BNumber (fold_left py_add
                           (map (λ product, PyFloat (Product.price product)) added)
                           b)) w'.
Proof.
  apply (update_adds_new world_stored 0
           (OrderUpdate.mk [product_c; product_a; product_c]) 0%nat
           (mkOrderValue 0 [product_a; product_b] 0 1)).
  - exact World_ok_world_stored.
  - exact first_match_world_stored.
  - vm_compute. reflexivity.
Defined.

(* ===================================================================== *)
(** * What POST /order creates *)
(* ===================================================================== *)

Lemma inference_products_results {Model Config : Type}
    (predict : Model → list Byte.byte → Config → exn + list Prediction)
    (model : Model) (config : Config) (src : nat → UUID)
    (files : list UploadFile.t) (results : list (list Prediction)) :
  classifies predict model config files results →
  ∀ pos,
    Forall2 (λ file product,
               ∃ r, predict model (UploadFile.content file) config = inr r ∧
                    Product.result product = Some (Some r))
            files (inference_products src pos results).
Proof.
  induction 1 as [|file r files results Hr _ IH]; intros pos; simpl.
  - constructor.
  - constructor; [by exists r|apply IH].
Qed.

Lemma fresh_list_None (w : World) : list_heap w !! fresh (dom (list_heap w)) = None.
Proof. apply not_elem_of_dom, is_fresh. Qed.

Lemma created_keeps_snapshot (w : World) (ps : list Product.t) (l0 : loc)
    (v0 : OrderValue) :
  snapshot w l0 = Some v0 → snapshot (created w ps) l0 = Some v0.
Proof.
  intros (o0 & Ho0 & Hps0 & Hid0 & Hc0 & Hu0)%snapshot_inv.
  unfold snapshot, created. simpl. rewrite lookup_insert_ne.
  - rewrite Ho0. rewrite lookup_insert_ne.
    + rewrite Hps0. destruct v0; simpl in *; congruence.
    + intros Heq. pose proof (fresh_list_None w) as Hfresh.
      rewrite Heq in Hfresh. congruence.
  - intros Heq. pose proof (fresh_order_None w) as Hfresh.
    rewrite Heq in Hfresh. congruence.
Qed.

(** X8. When the classifier answers for every uploaded file,
    POST /order returns normally with one new order, appended at the
    end of [orders], which GET /order then lists last. The order holds
    one product per file, in upload order, each carrying the
    classifier's answer for its file; the classifier was called exactly
    once per file, in upload order. The products' ids and then the
    order's id are consecutive values of [uuid4()], and [created_at] and
    [updated_at] are two consecutive readings of the clock. Every order
    that existed before keeps its value. *)
Theorem make_order_creates (Model Config : Type)
    (predict : Model → list Byte.byte → Config → exn + list Prediction)
    (model : Model) (config : Config)
    (files : list UploadFile.t) (results : list (list Prediction)) (w : World) :
  classifies predict model config files results →
  ∃ order w' v,
    make_order Model Config predict files model config w = Returned (BOrder order) w' ∧
    status_code (make_order Model Config predict files model config w) = Some 200 ∧
    order_heap w !! order = None ∧
    orders w' = orders w ++ [order] ∧
    get_orders w' = Returned (BOrders (orders w ++ [order])) w' ∧
    snapshot w' order = Some v ∧
    Forall2 (λ file product,
               ∃ r, predict model (UploadFile.content file) config = inr r ∧
                    Product.result product = Some (Some r))
            files (v_products v) ∧
    product_ids (v_products v) = map (uuid_src w) (seq (uuid_pos w) (length files)) ∧
    v_id v = uuid_src w (uuid_pos w + length files) ∧
    v_created_at v = clock w (clock_pos w) ∧
    v_updated_at v = clock w (S (clock_pos w)) ∧
    classify_log w' = classify_log w ++ map UploadFile.content files ∧
    ∀ l0 v0, snapshot w l0 = Some v0 → snapshot w' l0 = Some v0.
Proof.
  intros Hcl.
  pose proof (make_order_ok predict model config files results w Hcl) as Hrun.
  simpl in Hrun.
  set (wc := classified w (map UploadFile.content files) (length files)) in *.
  set (ps := inference_products (uuid_src w) (uuid_pos w) results) in *.
  set (order := fresh (dom (order_heap w))) in *.
  set (w' := with_orders (orders w ++ [order]) (created wc ps)) in *.
  assert (length results = length files) as Hlen.
  { symmetry. by eapply Forall2_length. }
  exists order, w'.
  exists (mkOrderValue (uuid_src wc (uuid_pos wc)) ps
            (clock wc (clock_pos wc)) (clock wc (S (clock_pos wc)))).
  split_and!; try done.
  - by rewrite Hrun.
  - apply fresh_order_None.
  - unfold snapshot, w', created. simpl.
    rewrite lookup_insert_eq. simpl. by rewrite lookup_insert_eq.
  - simpl. by apply inference_products_results.
  - simpl. unfold ps. by rewrite inference_products_ids, Hlen.
  - intros l0 v0 Hv0. apply (created_keeps_snapshot wc ps l0 v0 Hv0).
Qed.

Lemma make_order_creates_witness :
  ∃ order w' v,
    make_order unit unit sample_predict [file_good; file_good] tt tt world_stored
      = Returned (BOrder order) w' ∧
    status_code (make_order unit unit sample_predict [file_good; file_good] tt tt
                   world_stored) = Some 200 ∧
    order_heap world_stored !! order = None ∧
    orders w' = orders world_stored ++ [order] ∧
    get_orders w' = Returned (BOrders (orders world_stored ++ [order])) w' ∧
    snapshot w' order = Some v ∧
    Forall2 (λ file product,
               ∃ r, sample_predict tt (UploadFile.content file) tt = inr r ∧
                    Product.result product = Some (Some r))
            [file_good; file_good] (v_products v) ∧
    product_ids (v_products v)
      = map (uuid_src world_stored) (seq (uuid_pos world_stored) 2) ∧
    v_id v = uuid_src world_stored (uuid_pos world_stored + 2) ∧
    v_created_at v = clock world_stored (clock_pos world_stored) ∧
    v_updated_at v = clock world_stored (S (clock_pos world_stored)) ∧
    classify_log w' =
      classify_log world_stored ++ map UploadFile.content [file_good; file_good] ∧
    ∀ l0 v0, snapshot world_stored l0 = Some v0 → snapshot w' l0 = Some v0.
Proof.
  apply (make_order_creates unit unit sample_predict tt tt
           [file_good; file_good] [["even"]; ["even"]] world_stored).
  repeat constructor.
Defined.

(* ===================================================================== *)
(** * Bills of whole-number prices *)
(* ===================================================================== *)

Lemma float_add_int_nonneg (a b : Z) :
  0 ≤ a → 0 ≤ b → a + b < 2 ^ 53 →
  float_add (float_of_int a) (float_of_int b) = float_of_int (a + b).
Proof.
  intros Ha Hb Hab.
  destruct (decide (a = 0)) as [->|Hna]; destruct (decide (b = 0)) as [->|Hnb].
  - done.
  - rewrite Z.add_0_l, (float_of_int_canon b) by lia. done.
  - rewrite Z.add_0_r, (float_of_int_canon a) by lia. done.
  - apply float_add_int; lia.
Qed.

Lemma total_nonneg (zs : list Z) : Forall (λ z, 0 ≤ z) zs → 0 ≤ total zs.
Proof.
  induction 1 as [|z zs Hz _ IH]; simpl; [done|]. unfold total in *. simpl. lia.
Qed.

Lemma fold_py_add_ints (zs : list Z) :
  ∀ a, 0 ≤ a → Forall (λ z, 0 ≤ z) zs → a + total zs < 2 ^ 53 →
       fold_left py_add (map (λ z, PyFloat (float_of_int z)) zs)
                 (PyFloat (float_of_int a))
       = PyFloat (float_of_int (a + total zs)).
Proof.
  induction zs as [|z zs IH]; intros a Ha Hall Hlt.
  - simpl. unfold total. simpl. by rewrite Z.add_0_r.
  - apply Forall_cons in Hall as [Hz Hall].
    pose proof (total_nonneg zs Hall) as Hnn.
    assert (total (z :: zs) = z + total zs) as Htot by done.
    rewrite Htot in *. cbn [map fold_left py_add].
    rewrite float_add_int_nonneg by lia.
    rewrite IH by (done || lia). do 2 f_equal. lia.
Qed.

(** X9. When the prices of an order's products are whole numbers, none
    negative, whose total stays below 2^53, reading [bill] gives exactly
    that total: no rounding happens in the float sum. *)
Theorem bill_exact_on_integers (w : World) (self : loc) (v : OrderValue)
    (zs : list Z) :
  snapshot w self = Some v →
  map Product.price (v_products v) = map float_of_int zs →
  Forall (λ z, 0 ≤ z) zs → total zs < 2 ^ 53 →
  ∃ b, bill self w = Returned b w ∧ py_as_int b = Some (total zs).
Proof.
  intros Hv Hprices Hall Hlt.
  eexists. split; [by apply (bill_run w self v)|].
  replace (map (λ product, PyFloat (Product.price product)) (v_products v))
    with (map (λ z, PyFloat (float_of_int z)) zs).
  2:{ rewrite <- (map_map float_of_int PyFloat zs), <- Hprices.
      by rewrite map_map. }
  destruct zs as [|z zs]; [done|].
  apply Forall_cons in Hall as [Hz Hall].
  pose proof (total_nonneg zs Hall) as Hnn.
  assert (total (z :: zs) = z + total zs) as Htot by done.
  rewrite Htot in *. unfold py_sum. cbn [map fold_left py_add].
  rewrite (float_add_int_nonneg 0 z), Z.add_0_l by lia.
  rewrite fold_py_add_ints by (done || lia).
  cbn [py_as_int]. apply float_as_int_of_int. lia.
Qed.

Lemma bill_exact_on_integers_witness :
  ∃ b, bill 0%nat world_ab = Returned b world_ab ∧ py_as_int b = Some 30.
Proof.
  apply (bill_exact_on_integers world_ab 0%nat
           (mkOrderValue 0 [product_a; product_b] 0 1) [10; 20]).
  - reflexivity.
  - reflexivity.
  - repeat constructor; lia.
  - vm_compute. reflexivity.
Defined.

(* ===================================================================== *)
(** * Handlers that cannot fail *)
(* ===================================================================== *)

Lemma next_order_returns (w : World) (os : list loc) (order_id : UUID) :
  Forall (λ l, is_Some (order_heap w !! l)) os →
  ∃ r, next_order os order_id w = Returned r w.
Proof.
  induction 1 as [|l os [o Ho] _ IH]; simpl; [by eexists|].
  run_monad. rewrite Ho. simpl. case_bool_decide; [by eexists|done].
Qed.

Lemma lookup_found_live (w : World) (order_id : UUID) (l : loc) :
  World_ok w → get_order_by_id order_id w = Returned (Some l) w →
  first_match w order_id l ∧ ∃ v, snapshot w l = Some v.
Proof.
  intros Hok Hget. pose proof Hget as (Hin & o & Ho & Hid)%next_order_some.
  destruct (first_match_exists w l o Hok Hin Ho) as [found Hfound].
  rewrite Hid in Hfound.
  pose proof (get_order_by_id_first w order_id found Hok Hfound) as Hget'.
  assert (found = l) as -> by congruence.
  split; [done|]. by apply (World_ok_snapshot w l o).
Qed.

(** X10. In every world the service can reach, the handlers other than
    POST /order always return normally, whatever identifier and
    products they are given: GET /order, GET /order/{order_id} and
    GET /bill/{order_id} answer without changing anything, and
    PATCH /order/{order_id} answers without changing [orders]. *)
Theorem handlers_return (w : World) (order_id : UUID)
    (order_update : OrderUpdate.t) :
  reachable w →
  get_orders w = Returned (BOrders (orders w)) w ∧
  (∃ body, get_order order_id w = Returned body w) ∧
  (∃ body, get_bill order_id w = Returned body w) ∧
  (∃ body w', update_order order_id order_update w = Returned body w' ∧
              orders w' = orders w).
Proof.
  intros [Hok _ _ _ _ _ _]%reachable_store_inv.
  destruct (next_order_returns w (orders w) order_id (proj1 Hok)) as [r Hr].
  fold (get_order_by_id order_id w) in Hr.
  split; [done|]. destruct r as [l|].
  - destruct (lookup_found_live w order_id l Hok Hr) as [Hfirst [v Hv]].
    split_and!.
    + exists (BOrder l). unfold get_order, bind. by rewrite Hr.
    + eexists. unfold get_bill, bind. by rewrite Hr, (bill_run w l v Hv).
    + destruct (update_order_run w order_id order_update l v Hok Hfirst Hv)
        as (updated & w' & v' & Hrun & _ & _ & Hos & _).
      by exists (BOrder updated), w'.
  - split_and!.
    + eexists. unfold get_order, bind. by rewrite Hr.
    + eexists. unfold get_bill, bind. by rewrite Hr.
    + exists (BDict not_found_message), w.
      unfold update_order, update_order_by_id, bind. by rewrite Hr.
Qed.

Lemma handlers_return_witness :
  get_orders world_two = Returned (BOrders (orders world_two)) world_two ∧
  (∃ body, get_order 4 world_two = Returned body world_two) ∧
  (∃ body, get_bill 4 world_two = Returned body world_two) ∧
  (∃ body w', update_order 4 (OrderUpdate.mk [product_a]) world_two
                = Returned body w' ∧
              orders w' = orders world_two).
Proof.
  apply (handlers_return world_two 4 (OrderUpdate.mk [product_a])).
  exact reachable_world_two.
Defined.
